(** * 3p/3p.js: utility functions for scripts running inside a third-party iframe

    A shallow embedding of the payload validators ([validateSrcPrefix],
    [validateExactlyOne], [validateData]) and of the cross-frame coordination
    primitive [computeInMasterFrame], followed by the properties established
    about them. *)

From stdpp Require Import base option list gmap strings pretty.

Local Open Scope string_scope.
Local Open Scope nat_scope.
Local Open Scope list_scope.

(** ** JavaScript data as the validators see it *)

Module Js.

(** The values a property can be bound to.  Numbers are restricted to the
    integers and [NaN], which is all their truthiness depends on; [VObject]
    is any object.  A payload holds data: none of the values stored in it can
    be called. *)
Inductive value : Type :=
  | VUndefined
  | VNull
  | VBool (b : bool)
  | VNum (n : Z)
  | VNaN
  | VStr (s : string)
  | VObject.

#[global] Instance value_eq_dec : EqDecision value.
Proof. solve_decision. Defined.

(** ToBoolean. *)
Definition truthy (v : value) : bool :=
  match v with
  | VUndefined | VNull | VNaN => false
  | VBool b => b
  | VNum n => negb (n =? 0)%Z
  | VStr s => negb (String.eqb s "")
  | VObject => true
  end.

(** What a call can throw. *)
Inductive exn : Type :=
  | TypeError
  | Error (message : string)
  | UserError (message : string) (args : list value)
  | Thrown (by_callback : nat).

Inductive outcome : Type :=
  | Returned
  | Threw (e : exn).

(** Property names every object inherits from [Object.prototype]. *)
Definition object_prototype_names : list string :=
  [ "constructor"; "hasOwnProperty"; "isPrototypeOf"; "propertyIsEnumerable";
    "toLocaleString"; "toString"; "valueOf"; "__proto__";
    "__defineGetter__"; "__defineSetter__"; "__lookupGetter__";
    "__lookupSetter__" ].

Definition mem (x : string) (l : list string) : bool :=
  existsb (String.eqb x) l.

Definition inherited (name : string) : bool := mem name object_prototype_names.

(** A plain object: its own enumerable properties in enumeration order, and
    the enumerable properties it sees through its prototype chain (none unless
    somebody extended a prototype). *)
Record object : Type := Object {
  own : list (string * value);
  proto_enum : list (string * value)
}.

Fixpoint assoc (k : string) (l : list (string * value)) : option value :=
  match l with
  | [] => None
  | (k', v) :: rest => if String.eqb k k' then Some v else assoc k rest
  end.

Definition has_key (k : string) (l : list (string * value)) : bool :=
  match assoc k l with Some _ => true | None => false end.

(** [data[field]]: own property, then the prototype chain, which ends in
    the methods of [Object.prototype] (function objects). *)
Definition js_get (o : object) (field : string) : value :=
  match assoc field (own o) with
  | Some v => v
  | None =>
    match assoc field (proto_enum o) with
    | Some v => v
    | None => if inherited field then VObject else VUndefined
    end
  end.

(** [field in o]. *)
Definition js_in (field : string) (o : object) : bool :=
  has_key field (own o) || has_key field (proto_enum o) || inherited field.

(** [o.hasOwnProperty(field)]: a [TypeError] ([None]) when a stored value
    shadows the method [Object.prototype.hasOwnProperty]. *)
Definition js_hasOwnProperty (o : object) (field : string) : option bool :=
  if has_key "hasOwnProperty" (own o) || has_key "hasOwnProperty" (proto_enum o)
  then None
  else Some (has_key field (own o)).

(** The keys a [for (const field in o)] loop visits, in order. *)
Definition for_in_keys (o : object) : list string :=
  map fst (own o) ++
  List.filter (fun k => negb (has_key k (own o))) (map fst (proto_enum o)).

(** [array.indexOf(x)] on an array of strings. *)
Fixpoint array_indexOf (a : list string) (x : string) : Z :=
  match a with
  | [] => (-1)%Z
  | y :: rest =>
    if String.eqb y x then 0%Z
    else let i := array_indexOf rest x in
         if (i =? -1)%Z then (-1)%Z else (i + 1)%Z
  end.

(** [s.indexOf(search)] on strings. *)
Definition string_indexOf (s search : string) : Z :=
  match String.index 0 search s with
  | Some i => Z.of_nat i
  | None => (-1)%Z
  end.

(** [array.join(sep)] on an array of strings. *)
Definition join (sep : string) (a : list string) : string :=
  String.concat sep a.

(** Modelled from the spec: [user().assert] lives in src/log.js, which is not
    part of the sources at hand.  The validators are "straightforward assertion
    logic", and each of them is documented as one that "throws an exception"
    when what it asserts does not hold: the assertion throws a user error
    carrying the message template and its arguments when its first argument is
    falsy, and returns otherwise. *)
Definition user_assert (shouldBeTrueish : value) (message : string)
    (args : list value) : outcome :=
  if truthy shouldBeTrueish then Returned else Threw (UserError message args).

End Js.

(** ** The payload validators *)

Module Validate.
Import Js.

(** *** validateSrcPrefix *)

(** The [prefix] argument: a single string, or an array of strings
    ([isArray] tells them apart). *)
Inductive prefix_arg : Type :=
  | PString (s : string)
  | PArray (a : list string).

(** [if (!isArray(prefix)) prefix = [prefix]]. *)
Definition as_array (prefix : prefix_arg) : list string :=
  match prefix with
  | PString s => [s]
  | PArray a => a
  end.

(** ToString of [prefix[p]]: reading past the end gives [undefined], which
    [indexOf] converts to the string "undefined". *)
Definition search_string (elem : option string) : string :=
  default "undefined" elem.

(** The loop [for (let p = 0; p <= prefix.length; p++)], started at index [p].
    [steps] bounds the number of iterations still allowed; the result is the
    pair of "returned early" and the indices [p] at which [prefix[p]] was read. *)
Fixpoint scan (prefix : list string) (src : string) (p steps : nat)
    : bool * list nat :=
  match steps with
  | 0 => (false, [])
  | S steps' =>
    if (p <=? length prefix)%nat then
      let protocolIndex := string_indexOf src (search_string (prefix !! p)) in
      if (protocolIndex =? 0)%Z then (true, [p])
      else
        let '(found, visited) := scan prefix src (S p) steps' in
        (found, p :: visited)
    else (false, [])
  end.

(** One more step than the guard can ever admit. *)
Definition scan_budget (prefix : list string) : nat := length prefix + 2.

(** [src] is [None] when the caller passes [undefined]. *)
Definition validateSrcPrefix_trace (prefix : prefix_arg) (src : option string)
    : outcome * list nat :=
  let prefix := as_array prefix in
  let invalid := Threw (Error ("Invalid src " +:+ default "undefined" src)) in
  match src with
  | Some s =>
    let '(found, visited) := scan prefix s 0 (scan_budget prefix) in
    (if found then Returned else invalid, visited)
  | None => (invalid, [])
  end.

Definition validateSrcPrefix (prefix : prefix_arg) (src : option string)
    : outcome :=
  fst (validateSrcPrefix_trace prefix src).

(** The indices of [prefix] the call reads. *)
Definition indices_read (prefix : prefix_arg) (src : option string) : list nat :=
  snd (validateSrcPrefix_trace prefix src).

(** *** validateExactlyOne *)

(** The counting loop, with the running value of [countFileds]. *)
Fixpoint count_loop (data : object) (alternativeFields : list string)
    (countFileds : Z) : Z :=
  match alternativeFields with
  | [] => countFileds
  | field :: rest =>
    if truthy (js_get data field)
    then count_loop data rest (countFileds + 1)%Z
    else count_loop data rest countFileds
  end.

Definition exactly_one_message : string :=
  "%s must contain exactly one of attributes: %s.".

Definition validateExactlyOne (data : object) (alternativeFields : list string)
    : outcome :=
  let countFileds := count_loop data alternativeFields 0%Z in
  user_assert (VBool (countFileds =? 1)%Z) exactly_one_message
    [js_get data "type"; VStr (join ", " alternativeFields)].

(** The listed fields that count: those [data] binds to a truthy value. *)
Definition truthy_listed (data : object) (alternativeFields : list string)
    : list string :=
  List.filter (fun field => truthy (js_get data field)) alternativeFields.

(** *** validateData *)

Definition defaultAvailableFields : object :=
  Object [ ("width", VBool true); ("height", VBool true); ("type", VBool true);
           ("referrer", VBool true); ("canonicalUrl", VBool true);
           ("pageViewId", VBool true); ("location", VBool true);
           ("mode", VBool true); ("consentNotificationId", VBool true) ] [].

(** The nine field names of [defaultAvailableFields]. *)
Definition default_names : list string := map fst (own defaultAvailableFields).

Definition unknown_attribute_message : string :=
  "Unknown attribute for %s: %s.".

(** The body of the [for ... in] loop over the remaining [fields]. *)
Fixpoint validateData_loop (data : object) (allowedFields : list string)
    (fields : list string) : outcome :=
  match fields with
  | [] => Returned
  | field :: rest =>
    match js_hasOwnProperty data field with
    | None => Threw TypeError
    | Some isOwn =>
      if negb isOwn || js_in field defaultAvailableFields
      then validateData_loop data allowedFields rest
      else
        match user_assert
                (VBool (negb (array_indexOf allowedFields field =? -1)%Z))
                unknown_attribute_message [js_get data "type"; VStr field] with
        | Returned => validateData_loop data allowedFields rest
        | Threw e => Threw e
        end
    end
  end.

Definition validateData (data : object) (allowedFields : list string)
    : outcome :=
  validateData_loop data allowedFields (for_in_keys data).

(** *** validateSrcContains *)

(** [src] is [None] when the caller passes [undefined], of which [indexOf]
    cannot be read. *)
Definition validateSrcContains (search : string) (src : option string)
    : outcome :=
  match src with
  | None => Threw TypeError
  | Some s =>
    if (string_indexOf s search =? -1)%Z
    then Threw (Error ("Invalid src " +:+ s))
    else Returned
  end.

(** *** validateDataExists *)

Definition missing_attribute_message : string :=
  "Missing attribute for %s: %s.".

Fixpoint validateDataExists (data : object) (mandatoryFields : list string)
    : outcome :=
  match mandatoryFields with
  | [] => Returned
  | field :: rest =>
    match user_assert (js_get data field) missing_attribute_message
            [js_get data "type"; VStr field] with
    | Returned => validateDataExists data rest
    | Threw e => Threw e
    end
  end.

(** *** checkData *)

(** [rethrowAsync] is imported from src/log.js and is not called for its
    result: [checkData] is given by what it hands to [rethrowAsync], [None]
    when it does not call it.  Whatever [validateData] throws is caught. *)
Definition checkData (data : object) (allowedFields : list string)
    : option exn :=
  match validateData data allowedFields with
  | Returned => None
  | Threw e => Some e
  end.

(** *** Reading the validators *)

(** [x] starts [s]; [x] occurs somewhere in [s]. *)
Definition starts_with (x s : string) : Prop := ∃ rest, s = x +:+ rest.

Definition occurs_in (x s : string) : Prop :=
  ∃ before rest, s = before +:+ x +:+ rest.

(** What entry [i] of the loop of [validateSrcPrefix] compares [s] with
    starts [s]. *)
Definition hit (a : list string) (s : string) (i : nat) : Prop :=
  string_indexOf s (search_string (a !! i)) = 0%Z.

#[global] Instance hit_dec a s i : Decision (hit a s i).
Proof. unfold hit. apply _. Defined.

(** A stored value hides [Object.prototype.hasOwnProperty]. *)
Definition shadows_hasOwnProperty (data : object) : bool :=
  has_key "hasOwnProperty" (own data)
  || has_key "hasOwnProperty" (proto_enum data).

(** A field name that is neither reachable in [defaultAvailableFields] nor
    listed in [allowedFields]. *)
Definition unknown_field (allowedFields : list string) (field : string) : bool :=
  negb (js_in field defaultAvailableFields || mem field allowedFields).

End Validate.

(** ** computeInMasterFrame *)

Module MasterFrame.
Import Js.

(** A callback handed to [computeInMasterFrame].  Callbacks are user code: the
    coordinator only ever calls them with the result, and what matters to it
    is whether that call returns or throws.  A callback is taken not to call
    back into [computeInMasterFrame] while it runs. *)
Record callback : Type := Callback {
  cb_id : nat;
  cb_throws : bool
}.

#[global] Instance callback_eq_dec : EqDecision callback.
Proof. solve_decision. Defined.

(** What [tasks[taskId]] can hold: the array of waiting callbacks (arrays are
    shared mutable objects, so the registry holds the address of the array in
    the heap), or the stub [{push: function(cb) { cb(result); }}] installed
    once the result is known. *)
Inductive entry : Type :=
  | EArray (l : nat)
  | EStub (result : value).

#[global] Instance entry_eq_dec : EqDecision entry.
Proof. solve_decision. Defined.

(** The completion function [result => {...}] passed to [work]: it captures
    [taskId] and [cbs] (and [tasks], which is always the master's registry). *)
Record closure : Type := Closure {
  cl_taskId : string;
  cl_cbs : entry
}.

(** What an observer sees: the calls made, the completion functions invoked,
    and the callbacks invoked (tagged with the task they were passed for). *)
Inductive event : Type :=
  | EvCall (isMaster : bool) (taskId : string) (work : nat) (cb : callback)
  | EvComplete (taskId : string) (result : value)
  | EvCallback (taskId : string) (cb : callback) (result : value).

#[global] Instance event_eq_dec : EqDecision event.
Proof. solve_decision. Defined.

(** The master window ([global.context.master]) and what surrounds it:
    - [ampMasterTasks]: the property [master.__ampMasterTasks], [None] while
      it is undefined;
    - [heap]: the callback arrays allocated so far, by address;
    - [works]: the invocations of work functions so far, each with the
      identifier of the work function and the completion function it received;
    - [log]: the events so far, oldest first. *)
Record world : Type := World {
  ampMasterTasks : option (gmap string entry);
  heap : list (list callback);
  works : list (nat * closure);
  log : list event
}.

Definition init : world := World None [] [] [].

(** The registry as a lookup table (empty while the property is undefined). *)
Definition tasks_of (σ : world) : gmap string entry :=
  default ∅ (ampMasterTasks σ).

Definition set_tasks (tasks : gmap string entry) (σ : world) : world :=
  World (Some tasks) (heap σ) (works σ) (log σ).

Definition set_heap (h : list (list callback)) (σ : world) : world :=
  World (ampMasterTasks σ) h (works σ) (log σ).

Definition add_work (w : nat) (k : closure) (σ : world) : world :=
  World (ampMasterTasks σ) (heap σ) (works σ ++ [(w, k)]) (log σ).

Definition emit (e : event) (σ : world) : world :=
  World (ampMasterTasks σ) (heap σ) (works σ) (log σ ++ [e]).

(** The three things [tasks[taskId]] can evaluate to: [undefined], a value
    inherited from [Object.prototype] (the registry is created as [{}]), or an
    entry stored by an earlier call. *)
Inductive slot : Type :=
  | SUndefined
  | SInherited
  | SEntry (e : entry).

Definition read_slot (tasks : gmap string entry) (taskId : string) : slot :=
  match tasks !! taskId with
  | Some e => SEntry e
  | None => if inherited taskId then SInherited else SUndefined
  end.

(** [cbs.push(cb)]: on an array, append in place; on the stub, call [cb] with
    the stored result at once (and let what it throws escape). *)
Definition push (taskId : string) (cbs : entry) (cb : callback) (σ : world)
    : world * outcome :=
  match cbs with
  | EArray l => (set_heap (alter (fun q => q ++ [cb]) l (heap σ)) σ, Returned)
  | EStub result =>
    (emit (EvCallback taskId cb result) σ,
     if cb_throws cb then Threw (Thrown (cb_id cb)) else Returned)
  end.

(** The tail of the function, from [cbs.push(cb)] on. *)
Definition push_and_work (isMaster : bool) (taskId : string) (work : nat)
    (cbs : entry) (cb : callback) (σ : world) : world * outcome :=
  match push taskId cbs cb σ with
  | (σ', Threw e) => (σ', Threw e)
  | (σ', Returned) =>
    if negb isMaster then (σ', Returned)  (* Only do work in master. *)
    else (add_work work (Closure taskId cbs) σ', Returned)
  end.

(** [computeInMasterFrame(global, taskId, work, cb)], where [global.context]
    has the master window whose state is [σ] as its [master] and [isMaster]
    as its [isMaster] flag.  The work function is identified by [work]. *)
Definition computeInMasterFrame (isMaster : bool) (taskId : string)
    (work : nat) (cb : callback) (σ : world) : world * outcome :=
  let σ := emit (EvCall isMaster taskId work cb) σ in
  let tasks := tasks_of σ in
  let σ := set_tasks tasks σ in
  match read_slot tasks taskId with
  | SInherited => (σ, Threw TypeError)  (* no [push] on the inherited value *)
  | SUndefined =>
    let l := length (heap σ) in
    let σ := set_heap (heap σ ++ [[]]) σ in
    let σ := set_tasks (<[taskId := EArray l]> tasks) σ in
    push_and_work isMaster taskId work (EArray l) cb σ
  | SEntry cbs => push_and_work isMaster taskId work cbs cb σ
  end.

(** The loop [for (let i = 0; i < cbs.length; i++) cbs[i].call(null, result)]
    over the callbacks still to be called. *)
Fixpoint fan_out (taskId : string) (cbs : list callback) (result : value)
    (σ : world) : world * outcome :=
  match cbs with
  | [] => (σ, Returned)
  | cb :: rest =>
    let σ := emit (EvCallback taskId cb result) σ in
    if cb_throws cb then (σ, Threw (Thrown (cb_id cb)))
    else fan_out taskId rest result σ
  end.

(** The elements of what the completion function captured as [cbs]: the stub
    has no [length], so the loop over it does not run. *)
Definition queued (cbs : entry) (σ : world) : list callback :=
  match cbs with
  | EArray l => default [] (heap σ !! l)
  | EStub _ => []
  end.

(** The completion function [k] called with [result]. *)
Definition complete (k : closure) (result : value) (σ : world)
    : world * outcome :=
  let σ := emit (EvComplete (cl_taskId k) result) σ in
  match fan_out (cl_taskId k) (queued (cl_cbs k) σ) result σ with
  | (σ', Threw e) => (σ', Threw e)
  | (σ', Returned) =>
    (set_tasks (<[cl_taskId k := EStub result]> (tasks_of σ')) σ', Returned)
  end.

(** What can happen to a master window: some frame calls
    [computeInMasterFrame], or the work function invoked [n]-th calls the
    completion function it was given.  A work function that completes
    synchronously is a call directly followed by its completion: nothing in
    [computeInMasterFrame] comes after [work(...)]. *)
Inductive action : Type :=
  | ACall (isMaster : bool) (taskId : string) (work : nat) (cb : callback)
  | AComplete (n : nat) (result : value).

(** [None] when the action cannot happen: a completion function that no work
    function has received yet cannot be called. *)
Definition step (a : action) (σ : world) : option world :=
  match a with
  | ACall isMaster taskId work cb =>
    Some (fst (computeInMasterFrame isMaster taskId work cb σ))
  | AComplete n result =>
    match works σ !! n with
    | Some (_, k) => Some (fst (complete k result σ))
    | None => None
    end
  end.

Fixpoint run (acts : list action) (σ : world) : option world :=
  match acts with
  | [] => Some σ
  | a :: rest =>
    match step a σ with
    | Some σ' => run rest σ'
    | None => None
    end
  end.

(** *** Reading the observations *)

(** Work invocations for [taskId]. *)
Definition work_count (taskId : string) (σ : world) : nat :=
  length (List.filter (fun wk => String.eqb (cl_taskId (snd wk)) taskId) (works σ)).

(** Calls by the master context for [taskId] in a sequence of actions. *)
Definition is_master_call (taskId : string) (a : action) : bool :=
  match a with
  | ACall true t _ _ => String.eqb t taskId
  | _ => false
  end.

Definition master_calls (taskId : string) (acts : list action) : nat :=
  length (List.filter (is_master_call taskId) acts).

(** The callbacks passed for [taskId], in call order. *)
Fixpoint registered (taskId : string) (evs : list event) : list callback :=
  match evs with
  | [] => []
  | EvCall _ t _ cb :: rest =>
    if String.eqb t taskId then cb :: registered taskId rest
    else registered taskId rest
  | _ :: rest => registered taskId rest
  end.

(** The callback invocations for [taskId], in order, with the result passed. *)
Fixpoint delivered (taskId : string) (evs : list event)
    : list (callback * value) :=
  match evs with
  | [] => []
  | EvCallback t cb r :: rest =>
    if String.eqb t taskId then (cb, r) :: delivered taskId rest
    else delivered taskId rest
  | _ :: rest => delivered taskId rest
  end.

(** The results passed to completion functions of [taskId], in order. *)
Fixpoint completions (taskId : string) (evs : list event) : list value :=
  match evs with
  | [] => []
  | EvComplete t r :: rest =>
    if String.eqb t taskId then r :: completions taskId rest
    else completions taskId rest
  | _ :: rest => completions taskId rest
  end.

(** The callbacks passed for [taskId] by the calls among [acts], in order. *)
Fixpoint passed (taskId : string) (acts : list action) : list callback :=
  match acts with
  | [] => []
  | ACall _ t _ cb :: rest =>
    if String.eqb t taskId then cb :: passed taskId rest
    else passed taskId rest
  | _ :: rest => passed taskId rest
  end.

(** How often [cb] was passed for [taskId], and how often it was invoked. *)
Definition times_passed (taskId : string) (cb : callback)
    (acts : list action) : nat :=
  length (List.filter (fun c => bool_decide (c = cb)) (passed taskId acts)).

Definition times_invoked (taskId : string) (cb : callback)
    (evs : list event) : nat :=
  length (List.filter (fun cr => bool_decide (fst cr = cb)) (delivered taskId evs)).

(** *** Reading the fan-out *)

(** The callbacks a fan-out over [cbs] gets to call: all of them up to and
    including the first one that throws. *)
Fixpoint called (cbs : list callback) : list callback :=
  match cbs with
  | [] => []
  | cb :: rest => if cb_throws cb then [cb] else cb :: called rest
  end.

(** How a fan-out over [cbs] ends. *)
Definition fan_outcome (cbs : list callback) : outcome :=
  match List.find cb_throws cbs with
  | Some cb => Threw (Thrown (cb_id cb))
  | None => Returned
  end.

Definition returns (cb : callback) : Prop := cb_throws cb = false.

(** *** What holds of every state a master window can reach *)

Record consistent (σ : world) : Prop := Consistent {
  (** distinct tasks wait in distinct arrays *)
  queue_inj : ∀ t1 t2 l,
    tasks_of σ !! t1 = Some (EArray l) → tasks_of σ !! t2 = Some (EArray l) →
    t1 = t2;
  (** a waiting task's array holds the callbacks passed for it, in call order *)
  queue_regs : ∀ t l,
    tasks_of σ !! t = Some (EArray l) →
    heap σ !! l = Some (registered t (log σ));
  (** a task without entry has not been called for *)
  fresh_regs : ∀ t,
    tasks_of σ !! t = None → inherited t = false → registered t (log σ) = [];
  (** a completion function captured the stub, or the array its task still
      waits in unless the task is resolved *)
  closure_entry : ∀ w k,
    (w, k) ∈ works σ →
    (∃ r, tasks_of σ !! cl_taskId k = Some (EStub r)) ∨
    (∃ l, cl_cbs k = EArray l ∧ tasks_of σ !! cl_taskId k = Some (EArray l));
  (** before any completion, nothing is resolved and nothing delivered *)
  pending_silent : ∀ t,
    completions t (log σ) = [] →
    (∀ r, tasks_of σ !! t ≠ Some (EStub r)) ∧ delivered t (log σ) = [];
  (** after exactly one completion with callbacks that return, the task is
      resolved and each callback passed so far got the result once *)
  resolved_once : ∀ t r,
    completions t (log σ) = [r] →
    Forall returns (registered t (log σ)) →
    tasks_of σ !! t = Some (EStub r) ∧
    delivered t (log σ) = map (fun c => (c, r)) (registered t (log σ))
}.

(** *** More of what holds of every reachable state *)

(** The task an action is about. *)
Definition task_of (a : action) (σ : world) : option string :=
  match a with
  | ACall _ taskId _ _ => Some taskId
  | AComplete n _ =>
    match works σ !! n with
    | Some (_, k) => Some (cl_taskId k)
    | None => None
    end
  end.

Record traceable (σ : world) : Prop := Traceable {
  (** a captured array exists *)
  closure_bound : ∀ w k l,
    (w, k) ∈ works σ → cl_cbs k = EArray l → l < length (heap σ);
  (** a captured array is no other task's array *)
  closure_owner : ∀ w k l t,
    (w, k) ∈ works σ → cl_cbs k = EArray l →
    tasks_of σ !! t = Some (EArray l) → t = cl_taskId k;
  (** a captured array holds callbacks passed for the task of the closure *)
  closure_contents : ∀ w k l q c,
    (w, k) ∈ works σ → cl_cbs k = EArray l → heap σ !! l = Some q → c ∈ q →
    c ∈ registered (cl_taskId k) (log σ);
  (** a stored result was given to a completion function of the task *)
  stored_result : ∀ t r,
    tasks_of σ !! t = Some (EStub r) → r ∈ completions t (log σ);
  (** an invocation passes such a result to a callback passed for the task *)
  delivered_sound : ∀ t c r,
    (c, r) ∈ delivered t (log σ) →
    c ∈ registered t (log σ) ∧ r ∈ completions t (log σ);
  (** a completion function was handed out before it was called *)
  completion_needs_work : ∀ t,
    completions t (log σ) ≠ [] → 0 < work_count t σ;
  (** nothing is stored under a name inherited from [Object.prototype] *)
  inherited_absent : ∀ t, inherited t = true → tasks_of σ !! t = None
}.

End MasterFrame.

(** ** register and run *)

Module Registry.
Import Js.

(** Draw functions and windows are identified by numbers.  [registrations]
    is the object [{}] the module exports, as the table of its own
    properties. *)

(** What [registrations[id]] evaluates to: [undefined], a method inherited
    from [Object.prototype], the object [Object.prototype] itself (which is
    what the inherited accessor [__proto__] yields, and which cannot be
    called), or the draw function stored by [register]. *)
Inductive member : Type :=
  | MUndefined
  | MInherited
  | MPrototype
  | MDraw (draw : nat).

Definition read (registrations : gmap string nat) (id : string) : member :=
  match registrations !! id with
  | Some draw => MDraw draw
  | None =>
    if String.eqb id "__proto__" then MPrototype
    else if inherited id then MInherited
    else MUndefined
  end.

(** As a value: a function is an object. *)
Definition member_value (m : member) : value :=
  match m with
  | MUndefined => VUndefined
  | MInherited | MPrototype | MDraw _ => VObject
  end.

Inductive dev_error : Type :=
  | DevError (message : string) (args : list value).

(** Modelled from the spec: [dev().assert] lives in src/log.js, which is not
    part of the sources at hand.  The registry has a "duplicate-registration
    guard": the assertion fails, with the message template and its arguments,
    when its first argument is falsy, and [register] then stores nothing. *)
Definition dev_assert (shouldBeTrueish : value) (message : string)
    (args : list value) : option dev_error :=
  if truthy shouldBeTrueish then None else Some (DevError message args).

Definition register (id : string) (draw : nat)
    (registrations : gmap string nat) : gmap string nat * option dev_error :=
  match dev_assert
          (VBool (negb (truthy (member_value (read registrations id)))))
          "Double registration %s" [VStr id] with
  | Some e => (registrations, Some e)
  | None => (<[id := draw]> registrations, None)
  end.

(** What [run] ends in: the draw function applied to [win] and [data], the
    inherited method applied to them (whatever that does), or an exception;
    calling what is not a function is a [TypeError]. *)
Inductive ran : Type :=
  | Drew (draw : nat) (win : nat) (data : object)
  | AppliedInherited (id : string) (win : nat) (data : object)
  | Failed (e : exn).

Definition run (id : string) (win : nat) (data : object)
    (registrations : gmap string nat) : ran :=
  let fn := read registrations id in
  match user_assert (member_value fn) ("Unknown 3p: " +:+ id) [] with
  | Threw e => Failed e
  | Returned =>
    match fn with
    | MDraw draw => Drew draw win data
    | MInherited => AppliedInherited id win data
    | MPrototype | MUndefined => Failed TypeError
    end
  end.

(** The integrations of a frame register one after the other; a registration
    that fails stops its own script only. *)
Fixpoint register_all (calls : list (string * nat))
    (registrations : gmap string nat) : gmap string nat :=
  match calls with
  | [] => registrations
  | (id, draw) :: rest =>
    register_all rest (fst (register id draw registrations))
  end.

(** The draw function of the first call for [id]. *)
Fixpoint first_draw (id : string) (calls : list (string * nat)) : option nat :=
  match calls with
  | [] => None
  | (id', draw) :: rest =>
    if String.eqb id' id then Some draw else first_draw id rest
  end.

End Registry.

(** ** writeScript and executeAfterWriteScript *)

Module Scripts.

(** The page a frame writes its scripts to: the module counter
    [syncScriptLoads], the properties of [win] (functions are identified by
    numbers), and the markup passed to [win.document.write], oldest first. *)
Record page : Type := Page {
  syncScriptLoads : nat;
  win : gmap string nat;
  written : list string
}.

(** ['__runScript' + index]. *)
Definition runner_name (index : nat) : string :=
  "__runScript" +:+ pretty index.

Definition runner_markup (index : nat) : string :=
  "<script>" +:+ runner_name index +:+ "()</script>".

Definition executeAfterWriteScript (fn : nat) (σ : page) : page :=
  let index := syncScriptLoads σ in
  Page (S index)
       (<[runner_name index := fn]> (win σ))
       (written σ ++ [runner_markup index]).

(** What [writeScript] can throw. *)
Inductive write_error : Type :=
  | URIError.

Section EncodeURI.

(** The built-in [encodeURI]: [None] when it throws a [URIError], which it
    does on a url that is not well-formed. *)
Variable encodeURI : string → option string.

Definition dquote : string := String (Ascii.ascii_of_nat 34) EmptyString.

Definition script_markup (encoded : string) : string :=
  "<script src=" +:+ dquote +:+ encoded +:+ dquote +:+ "></script>".

(** [opt_cb] is [None] when the caller passes no callback.  The argument of
    [document.write] is evaluated first: when [encodeURI] throws, nothing is
    written, stored or counted. *)
Definition writeScript (url : string) (opt_cb : option nat) (σ : page)
    : page * option write_error :=
  match encodeURI url with
  | None => (σ, Some URIError)
  | Some encoded =>
    let σ := Page (syncScriptLoads σ) (win σ)
                  (written σ ++ [script_markup encoded]) in
    match opt_cb with
    | Some cb => (executeAfterWriteScript cb σ, None)
    | None => (σ, None)
    end
  end.

(** Calls one after the other; a call that throws stops its caller only. *)
Fixpoint writeScripts (calls : list (string * option nat)) (σ : page)
    : page :=
  match calls with
  | [] => σ
  | (url, opt_cb) :: rest =>
    writeScripts rest (fst (writeScript url opt_cb σ))
  end.

(** The callbacks of the calls that get as far as storing one, in call
    order. *)
Fixpoint callbacks_of (calls : list (string * option nat)) : list nat :=
  match calls with
  | [] => []
  | (url, opt_cb) :: rest =>
    match encodeURI url, opt_cb with
    | Some _, Some cb => cb :: callbacks_of rest
    | _, _ => callbacks_of rest
    end
  end.

End EncodeURI.

End Scripts.

(** * Properties of the validators *)

Import Js Validate.

Section SrcPrefix.

(** Past the bound the loop reads nothing. *)
Lemma scan_beyond (a : list string) (s : string) (p steps : nat) :
  length a < p → scan a s p steps = (false, []).
Proof.
  intros Hp. destruct steps as [|steps]; [done|]. simpl.
  destruct (Nat.leb_spec p (length a)) as [Hle|_]; [lia | done].
Qed.

(** The budget never cuts the loop short: beyond what the guard admits, more
    steps change nothing. *)
Lemma scan_budget_suffices (a : list string) (s : string) (steps p : nat) :
  S (length a) - p < steps → scan a s p (S steps) = scan a s p steps.
Proof.
  revert p. induction steps as [|steps IH]; intros p Hsteps; [lia|].
  destruct (Nat.leb_spec p (length a)) as [Hle|Hgt].
  - change (scan a s p (S (S steps)))
      with (if (p <=? length a)%nat then
              if (string_indexOf s (search_string (a !! p)) =? 0)%Z
              then (true, [p])
              else let '(found, visited) := scan a s (S p) (S steps) in
                   (found, p :: visited)
            else (false, [])).
    rewrite IH by lia. reflexivity.
  - by rewrite !scan_beyond.
Qed.

(** When no element of the array starts [s], the loop started at [p] reads
    every index from [p] to [length a], the last one included. *)
Lemma scan_reads_to_bound (a : list string) (s : string) :
  (∀ i x, a !! i = Some x → string_indexOf s x ≠ 0%Z) →
  ∀ steps p, p ≤ length a → length a - p < steps →
    snd (scan a s p steps) = seq p (S (length a) - p).
Proof.
  intros Hno. induction steps as [|steps IH]; intros p Hp Hsteps; [lia|].
  simpl. destruct (Nat.leb_spec p (length a)) as [_|Hgt]; [|lia].
  destruct (string_indexOf s (search_string (a !! p)) =? 0)%Z eqn:Hm.
  - apply Z.eqb_eq in Hm.
    destruct (a !! p) as [x|] eqn:Hx.
    + exfalso. exact (Hno p x Hx Hm).
    + apply lookup_ge_None in Hx.
      replace p with (length a) by lia.
      replace (S (length a) - length a) with 1 by lia. done.
  - destruct (decide (p = length a)) as [->|Hne].
    + rewrite scan_beyond by lia.
      replace (S (length a) - length a) with 1 by lia. done.
    + specialize (IH (S p) ltac:(lia) ltac:(lia)).
      destruct (scan a s (S p) steps) as [found visited]. simpl in *.
      rewrite IH. replace (S (length a) - p) with (S (length a - p)) by lia.
      done.
Qed.

(** Whatever the arguments, no index beyond [length a] is read. *)
Lemma scan_within_bound (a : list string) (s : string) (steps p i : nat) :
  i ∈ snd (scan a s p steps) → p ≤ i ≤ length a.
Proof.
  revert p. induction steps as [|steps IH]; intros p; simpl.
  - intros Hin. by apply elem_of_nil in Hin.
  - destruct (Nat.leb_spec p (length a)) as [Hle|_].
    + destruct (string_indexOf s (search_string (a !! p)) =? 0)%Z.
      * simpl. intros ->%list_elem_of_singleton. lia.
      * specialize (IH (S p)).
        destruct (scan a s (S p) steps) as [found visited]. simpl in *.
        intros [->|Hin]%elem_of_cons; [lia|]. specialize (IH Hin). lia.
    + simpl. intros Hin. by apply elem_of_nil in Hin.
Qed.

End SrcPrefix.

(** C7: in [validateSrcPrefix] the fallback loop runs with [p] from [0] up to
    and including [prefix.length] (its condition is [p <= prefix.length]): on a
    defined [src] that none of the listed prefixes starts, the indices read are
    exactly [0 .. n] for a prefix list of length [n], so the final iteration
    reads index [n], one past the end of the list, where nothing is stored. *)
Theorem validateSrcPrefix_reads_one_past_end
    (prefix : prefix_arg) (src : string) :
  (∀ i x, as_array prefix !! i = Some x → string_indexOf src x ≠ 0%Z) →
  indices_read prefix (Some src) = seq 0 (S (length (as_array prefix))) ∧
  last (indices_read prefix (Some src)) = Some (length (as_array prefix)) ∧
  as_array prefix !! length (as_array prefix) = None.
Proof.
  intros Hno.
  assert (Hread : indices_read prefix (Some src)
                  = seq 0 (S (length (as_array prefix)))).
  { unfold indices_read, validateSrcPrefix_trace.
    pose proof (scan_reads_to_bound (as_array prefix) src Hno
                  (scan_budget (as_array prefix)) 0) as H.
    unfold scan_budget in *.
    destruct (scan (as_array prefix) src 0 (length (as_array prefix) + 2))
      as [found visited]. simpl in *.
    rewrite H by lia. reflexivity. }
  split; [exact Hread|]. split.
  - rewrite Hread, seq_S, last_snoc. done.
  - by apply lookup_ge_None.
Qed.

Lemma validateSrcPrefix_reads_one_past_end_witness :
  indices_read (PArray ["https://a.example/"; "https://b.example/"])
    (Some "https://c.example/x.js") = [0; 1; 2] ∧
  last (indices_read (PArray ["https://a.example/"; "https://b.example/"])
    (Some "https://c.example/x.js")) = Some 2 ∧
  ["https://a.example/"; "https://b.example/"] !! 2 = None.
Proof.
  apply (validateSrcPrefix_reads_one_past_end
           (PArray ["https://a.example/"; "https://b.example/"])
           "https://c.example/x.js").
  intros [|[|i]] x Hx; simpl in Hx; simplify_eq; by vm_compute.
Defined.

(** What the read past the end is compared with: a [src] that starts with
    the text "undefined" is let through whatever the prefixes are. *)
Example validateSrcPrefix_lets_undefined_through :
  validateSrcPrefix (PArray ["https://a.example/"])
    (Some "undefined.example/x.js") = Returned ∧
  indices_read (PArray ["https://a.example/"])
    (Some "undefined.example/x.js") = [0; 1].
Proof. split; reflexivity. Qed.

(** C9: [validateSrcPrefix(prefix, undefined)] throws the invalid-src error
    for every [prefix], string or array, and reads no element of it. *)
Theorem validateSrcPrefix_undefined_src_throws (prefix : prefix_arg) :
  validateSrcPrefix prefix None = Threw (Error "Invalid src undefined") ∧
  indices_read prefix None = [].
Proof. by destruct prefix. Qed.

Section ExactlyOne.

Context (data : object).

Lemma count_loop_spec (alternativeFields : list string) (c : Z) :
  count_loop data alternativeFields c
  = (c + Z.of_nat (length (truthy_listed data alternativeFields)))%Z.
Proof.
  revert c. induction alternativeFields as [|f rest IH]; intros c; simpl.
  - lia.
  - destruct (truthy (js_get data f)); rewrite IH; simpl; lia.
Qed.

Lemma own_falsy_not_counted (f : string) (v : value) (l : list string) :
  assoc f (own data) = Some v → truthy v = false → f ∉ truthy_listed data l.
Proof.
  intros Hf Hv Hin. apply list_elem_of_In, filter_In in Hin as [_ Ht].
  unfold js_get in Ht. rewrite Hf in Ht. congruence.
Qed.

End ExactlyOne.

(** C10: [validateExactlyOne] counts only the listed fields bound to a truthy
    value: the counter ends as the number of listed fields whose value is
    truthy, a field that [data] binds to a falsy value ([0], [NaN], the empty
    string, [false], [null], [undefined]) is not among them, and the assertion
    passes exactly when that number is one and throws otherwise. *)
Theorem validateExactlyOne_counts_truthy_fields
    (data : object) (alternativeFields : list string) :
  count_loop data alternativeFields 0
    = Z.of_nat (length (truthy_listed data alternativeFields)) ∧
  (∀ f v, assoc f (own data) = Some v → truthy v = false →
          f ∉ truthy_listed data alternativeFields) ∧
  (validateExactlyOne data alternativeFields = Returned ↔
     length (truthy_listed data alternativeFields) = 1) ∧
  (length (truthy_listed data alternativeFields) ≠ 1 →
     validateExactlyOne data alternativeFields
     = Threw (UserError exactly_one_message
                [js_get data "type"; VStr (join ", " alternativeFields)])).
Proof.
  pose proof (count_loop_spec data alternativeFields 0) as Hc.
  rewrite Z.add_0_l in Hc.
  split; [exact Hc|]. split; [intros f v; apply own_falsy_not_counted|].
  unfold validateExactlyOne, user_assert. rewrite Hc. simpl.
  destruct (Z.eqb_spec (Z.of_nat (length (truthy_listed data alternativeFields))) 1)
    as [He|Hne].
  - split; [split; [lia | done] | lia].
  - split; [split; [done | lia] | done].
Qed.

Lemma validateExactlyOne_counts_truthy_fields_witness :
  let data := Object [("src", VStr ""); ("id", VNum 0); ("slot", VStr "7")] [] in
  ("src" ∉ truthy_listed data ["src"; "id"; "slot"]) ∧
  validateExactlyOne data ["src"; "id"; "slot"] = Returned ∧
  validateExactlyOne data ["src"; "id"]
  = Threw (UserError exactly_one_message [VUndefined; VStr "src, id"]).
Proof.
  intros data.
  destruct (validateExactlyOne_counts_truthy_fields data ["src"; "id"; "slot"])
    as (_ & Hfalsy & Hone & _).
  destruct (validateExactlyOne_counts_truthy_fields data ["src"; "id"])
    as (_ & _ & _ & Hnone).
  split; [|split].
  - apply (Hfalsy "src" (VStr "")); reflexivity.
  - apply Hone. reflexivity.
  - apply Hnone. vm_compute. lia.
Defined.

Section Data.

Lemma default_names_in (field : string) :
  field ∈ default_names → js_in field defaultAvailableFields = true.
Proof.
  unfold default_names. simpl.
  rewrite !elem_of_cons, elem_of_nil.
  intros H; repeat (destruct H as [->|H]; [reflexivity|]); done.
Qed.

(** An unknown-attribute error raised by the loop names a visited field that
    is an own property, is not in [defaultAvailableFields] and is not allowed. *)
Lemma validateData_loop_throws (data : object) (allowedFields fields : list string)
    (message : string) (args : list value) :
  validateData_loop data allowedFields fields = Threw (UserError message args) →
  ∃ field, field ∈ fields ∧
    message = unknown_attribute_message ∧
    args = [js_get data "type"; VStr field] ∧
    has_key field (own data) = true ∧
    js_in field defaultAvailableFields = false ∧
    array_indexOf allowedFields field = (-1)%Z.
Proof.
  induction fields as [|f rest IH]; simpl; [done|].
  destruct (js_hasOwnProperty data f) as [isOwn|] eqn:Hown; [|done].
  destruct (negb isOwn || js_in f defaultAvailableFields) eqn:Hskip.
  - intros H. destruct (IH H) as (field & Hin & Hrest).
    exists field. split; [by right | exact Hrest].
  - apply orb_false_iff in Hskip as [Hisown Hdef].
    apply negb_false_iff in Hisown. subst isOwn.
    unfold user_assert. simpl.
    destruct (Z.eqb_spec (array_indexOf allowedFields f) (-1)) as [Hidx|Hidx];
      simpl.
    + intros [= <- <-]. exists f. split; [by left|].
      unfold js_hasOwnProperty in Hown.
      destruct (has_key "hasOwnProperty" (own data)
                || has_key "hasOwnProperty" (proto_enum data));
        simplify_eq. done.
    + intros H. destruct (IH H) as (field & Hin & Hrest).
      exists field. split; [by right | exact Hrest].
Qed.

End Data.

(** C8: [validateData] never rejects one of the nine default fields: whatever
    the data object and the list of allowed fields, when the unknown-attribute
    assertion fires, the field it names is not one of [width], [height],
    [type], [referrer], [canonicalUrl], [pageViewId], [location], [mode],
    [consentNotificationId], listed in [allowedFields] or not. *)
Theorem validateData_accepts_default_fields
    (data : object) (allowedFields : list string)
    (message : string) (args : list value) :
  validateData data allowedFields = Threw (UserError message args) →
  default_names
  = ["width"; "height"; "type"; "referrer"; "canonicalUrl"; "pageViewId";
     "location"; "mode"; "consentNotificationId"] ∧
  ∃ field, args = [js_get data "type"; VStr field] ∧
    (field ∉ default_names) ∧ array_indexOf allowedFields field = (-1)%Z.
Proof.
  intros H. split; [reflexivity|].
  apply validateData_loop_throws in H
    as (field & _ & _ & Hargs & _ & Hdef & Hidx).
  exists field. split; [exact Hargs|]. split; [|exact Hidx].
  intros Hin. apply default_names_in in Hin. congruence.
Qed.

Lemma validateData_accepts_default_fields_witness :
  default_names
  = ["width"; "height"; "type"; "referrer"; "canonicalUrl"; "pageViewId";
     "location"; "mode"; "consentNotificationId"] ∧
  ∃ field,
    [VStr "ad"; VStr "colour"]
    = [js_get (Object [("width", VNum 300); ("type", VStr "ad");
                       ("mode", VObject); ("colour", VStr "red")] [])
         "type"; VStr field] ∧
    (field ∉ default_names) ∧ array_indexOf ["slot"] field = (-1)%Z.
Proof.
  apply (validateData_accepts_default_fields
           (Object [("width", VNum 300); ("type", VStr "ad");
                    ("mode", VObject); ("colour", VStr "red")] [])
           ["slot"] unknown_attribute_message).
  reflexivity.
Defined.


(** * Properties of computeInMasterFrame *)

Import MasterFrame.

(** ** What one call does, by what [tasks[taskId]] holds *)

Lemma alter_last {A} (f : A → A) (h : list A) (x : A) :
  alter f (length h) (h ++ [x]) = h ++ [f x].
Proof.
  replace (length h) with (length h + 0) by lia. by rewrite alter_app_r.
Qed.

Section CallEffects.

Context (isMaster : bool) (taskId : string) (work : nat) (cb : callback).
Context (σ : world).

Lemma call_inherited :
  tasks_of σ !! taskId = None → inherited taskId = true →
  computeInMasterFrame isMaster taskId work cb σ
  = (World (Some (tasks_of σ)) (heap σ) (works σ)
       (log σ ++ [EvCall isMaster taskId work cb]),
     Threw TypeError).
Proof.
  intros Hnone Hinh. unfold computeInMasterFrame, read_slot. simpl.
  change (tasks_of (emit _ σ)) with (tasks_of σ).
  by rewrite Hnone, Hinh.
Qed.

Lemma call_fresh :
  tasks_of σ !! taskId = None → inherited taskId = false →
  computeInMasterFrame isMaster taskId work cb σ
  = (World (Some (<[taskId := EArray (length (heap σ))]> (tasks_of σ)))
       (heap σ ++ [[cb]])
       (works σ ++ (if isMaster
                    then [(work, Closure taskId (EArray (length (heap σ))))]
                    else []))
       (log σ ++ [EvCall isMaster taskId work cb]),
     Returned).
Proof.
  intros Hnone Hinh. unfold computeInMasterFrame, read_slot. simpl.
  change (tasks_of (emit _ σ)) with (tasks_of σ).
  rewrite Hnone, Hinh.
  unfold push_and_work, push, add_work, set_heap, set_tasks, emit. simpl.
  rewrite alter_last.
  destruct isMaster; simpl; by rewrite ?app_nil_r.
Qed.

Lemma call_waiting (l : nat) :
  tasks_of σ !! taskId = Some (EArray l) →
  computeInMasterFrame isMaster taskId work cb σ
  = (World (Some (tasks_of σ))
       (alter (fun q => q ++ [cb]) l (heap σ))
       (works σ ++ (if isMaster then [(work, Closure taskId (EArray l))]
                    else []))
       (log σ ++ [EvCall isMaster taskId work cb]),
     Returned).
Proof.
  intros Hsome. unfold computeInMasterFrame, read_slot. simpl.
  change (tasks_of (emit _ σ)) with (tasks_of σ).
  rewrite Hsome.
  unfold push_and_work, push, add_work, set_heap, set_tasks, emit. simpl.
  destruct isMaster; simpl; by rewrite ?app_nil_r.
Qed.

Lemma call_resolved (r : value) :
  tasks_of σ !! taskId = Some (EStub r) →
  computeInMasterFrame isMaster taskId work cb σ
  = (World (Some (tasks_of σ)) (heap σ)
       (works σ ++ (if isMaster && negb (cb_throws cb)
                    then [(work, Closure taskId (EStub r))] else []))
       (log σ ++ [EvCall isMaster taskId work cb; EvCallback taskId cb r]),
     if cb_throws cb then Threw (Thrown (cb_id cb)) else Returned).
Proof.
  intros Hsome. unfold computeInMasterFrame, read_slot. simpl.
  change (tasks_of (emit _ σ)) with (tasks_of σ).
  rewrite Hsome.
  unfold push_and_work, push, add_work, set_heap, set_tasks, emit. simpl.
  rewrite <- app_assoc. simpl.
  destruct (cb_throws cb), isMaster; simpl; by rewrite ?app_nil_r.
Qed.

End CallEffects.

(** ** What a completion does *)

Lemma fan_out_spec (t : string) (r : value) (cbs : list callback) (σ : world) :
  fan_out t cbs r σ
  = (World (ampMasterTasks σ) (heap σ) (works σ)
       (log σ ++ map (fun c => EvCallback t c r) (called cbs)),
     fan_outcome cbs).
Proof.
  revert σ. induction cbs as [|c rest IH]; intros σ; simpl.
  - rewrite app_nil_r. by destruct σ.
  - unfold fan_outcome. simpl. destruct (cb_throws c) eqn:Hc.
    + done.
    + rewrite IH. simpl. by rewrite <- app_assoc.
Qed.

Lemma called_all (cbs : list callback) :
  Forall returns cbs → called cbs = cbs ∧ fan_outcome cbs = Returned.
Proof.
  unfold fan_outcome.
  induction 1 as [|c rest Hc _ [IH1 IH2]]; simpl; [done|].
  rewrite Hc. by rewrite IH1.
Qed.

Lemma called_until_throw (pre post : list callback) (b : callback) :
  Forall returns pre → cb_throws b = true →
  called (pre ++ b :: post) = pre ++ [b] ∧
  fan_outcome (pre ++ b :: post) = Threw (Thrown (cb_id b)).
Proof.
  unfold fan_outcome. intros Hpre Hb.
  induction Hpre as [|c rest Hc _ [IH1 IH2]]; simpl.
  - by rewrite Hb.
  - rewrite Hc. by rewrite IH1.
Qed.

Lemma called_prefix (cbs : list callback) : called cbs `prefix_of` cbs.
Proof.
  induction cbs as [|c rest IH]; simpl; [done|].
  destruct (cb_throws c).
  - by apply prefix_cons, prefix_nil.
  - by apply prefix_cons.
Qed.

Lemma complete_spec (k : closure) (r : value) (σ : world) :
  complete k r σ
  = (World
       (match fan_outcome (queued (cl_cbs k) σ) with
        | Returned => Some (<[cl_taskId k := EStub r]> (tasks_of σ))
        | Threw _ => ampMasterTasks σ
        end)
       (heap σ) (works σ)
       (log σ ++ EvComplete (cl_taskId k) r
          :: map (fun c => EvCallback (cl_taskId k) c r)
                 (called (queued (cl_cbs k) σ))),
     fan_outcome (queued (cl_cbs k) σ)).
Proof.
  unfold complete. rewrite fan_out_spec. simpl.
  change (queued (cl_cbs k) (emit _ σ)) with (queued (cl_cbs k) σ).
  rewrite <- app_assoc. simpl.
  destruct (fan_outcome (queued (cl_cbs k) σ)); done.
Qed.


(** ** Counting work invocations *)

Lemma work_count_snoc (t : string) (σ : world) (w : nat) (k : closure) :
  work_count t (World (ampMasterTasks σ) (heap σ) (works σ ++ [(w, k)]) (log σ))
  = work_count t σ + (if String.eqb (cl_taskId k) t then 1 else 0).
Proof.
  unfold work_count. simpl. rewrite List.filter_app, length_app. simpl.
  by destruct (String.eqb (cl_taskId k) t).
Qed.

(** A call adds at most one work invocation, and only when made by the
    master context for that task. *)
Lemma call_work_count_le (t : string) (m : bool) (t' : string) (w : nat)
    (cb : callback) (σ : world) :
  work_count t (fst (computeInMasterFrame m t' w cb σ))
  ≤ work_count t σ + (if is_master_call t (ACall m t' w cb) then 1 else 0).
Proof.
  pose proof (work_count_snoc t σ w) as Hsnoc. unfold work_count in *.
  destruct (tasks_of σ !! t') as [[l|r]|] eqn:Hslot.
  - rewrite (call_waiting _ _ _ _ _ _ Hslot). simpl.
    destruct m; simpl; rewrite ?app_nil_r; [|lia].
    specialize (Hsnoc (Closure t' (EArray l))). simpl in Hsnoc. lia.
  - rewrite (call_resolved _ _ _ _ _ _ Hslot). simpl.
    destruct m, (cb_throws cb); simpl; rewrite ?app_nil_r; try lia.
    specialize (Hsnoc (Closure t' (EStub r))). simpl in Hsnoc. lia.
  - destruct (inherited t') eqn:Hinh.
    + rewrite (call_inherited _ _ _ _ _ Hslot Hinh). simpl. lia.
    + rewrite (call_fresh _ _ _ _ _ Hslot Hinh). simpl.
      destruct m; simpl; rewrite ?app_nil_r; [|lia].
      specialize (Hsnoc (Closure t' (EArray (length (heap σ))))).
      simpl in Hsnoc. lia.
Qed.

(** It adds exactly one when the call gets as far as [work]. *)
Lemma call_work_count_eq (t : string) (m : bool) (t' : string) (w : nat)
    (cb : callback) (σ : world) :
  inherited t = false →
  (m = true → t' = t → cb_throws cb = false) →
  work_count t (fst (computeInMasterFrame m t' w cb σ))
  = work_count t σ + (if is_master_call t (ACall m t' w cb) then 1 else 0).
Proof.
  intros Hinh Hret.
  pose proof (work_count_snoc t σ w) as Hsnoc. unfold work_count in *.
  destruct (tasks_of σ !! t') as [[l|r]|] eqn:Hslot.
  - rewrite (call_waiting _ _ _ _ _ _ Hslot). simpl.
    destruct m; simpl; rewrite ?app_nil_r; [|lia].
    specialize (Hsnoc (Closure t' (EArray l))). simpl in Hsnoc. lia.
  - rewrite (call_resolved _ _ _ _ _ _ Hslot). simpl.
    destruct m; simpl; rewrite ?app_nil_r; [|lia].
    destruct (String.eqb_spec t' t) as [Heq|Hne].
    + rewrite (Hret eq_refl Heq). simpl.
      specialize (Hsnoc (Closure t' (EStub r))). simpl in Hsnoc.
      rewrite Hsnoc. by rewrite (proj2 (String.eqb_eq t' t) Heq).
    + destruct (cb_throws cb); simpl; rewrite ?app_nil_r; [lia|].
      specialize (Hsnoc (Closure t' (EStub r))). simpl in Hsnoc.
      rewrite Hsnoc. by rewrite (proj2 (String.eqb_neq t' t) Hne).
  - destruct (inherited t') eqn:Hinh'.
    + rewrite (call_inherited _ _ _ _ _ Hslot Hinh'). simpl.
      destruct m; [|lia].
      destruct (String.eqb_spec t' t) as [Heq|Hne]; [congruence | lia].
    + rewrite (call_fresh _ _ _ _ _ Hslot Hinh'). simpl.
      destruct m; simpl; rewrite ?app_nil_r; [|lia].
      specialize (Hsnoc (Closure t' (EArray (length (heap σ))))).
      simpl in Hsnoc. lia.
Qed.

Lemma complete_work_count (t : string) (k : closure) (r : value) (σ : world) :
  work_count t (fst (complete k r σ)) = work_count t σ.
Proof. rewrite complete_spec. done. Qed.

Lemma master_calls_cons (t : string) (a : action) (acts : list action) :
  master_calls t (a :: acts)
  = (if is_master_call t a then 1 else 0) + master_calls t acts.
Proof. unfold master_calls. simpl. by destruct (is_master_call t a). Qed.

(** C1 (as amended): across any sequence of calls and completions on a master
    window, the work function of a task is invoked at most once per call made
    by the master context for that task, never by a call of another context,
    and exactly once per such call when the task's name is not one inherited
    from [Object.prototype] and the callbacks of those calls return; so it is
    invoked exactly once precisely when the master context calls once. *)
Theorem work_invoked_once_per_master_call
    (acts : list action) (σ0 σ : world) (t : string) :
  run acts σ0 = Some σ →
  work_count t σ ≤ work_count t σ0 + master_calls t acts ∧
  (inherited t = false →
   (∀ w cb, ACall true t w cb ∈ acts → cb_throws cb = false) →
   work_count t σ = work_count t σ0 + master_calls t acts).
Proof.
  revert σ0. induction acts as [|a acts IH]; intros σ0 Hrun; simpl in Hrun.
  - simplify_eq. unfold master_calls. simpl. split; [lia | intros; lia].
  - destruct (step a σ0) as [σ1|] eqn:Hstep; [|done].
    destruct (IH σ1 Hrun) as [IHle IHeq].
    rewrite master_calls_cons.
    destruct a as [m t' w cb | n r]; simpl in Hstep.
    + injection Hstep as <-. split.
      * pose proof (call_work_count_le t m t' w cb σ0). lia.
      * intros Hinh Hret.
        rewrite IHeq; [|done|intros w' cb' Hin; apply (Hret w'); by right].
        rewrite (call_work_count_eq t m t' w cb σ0 Hinh); [lia|].
        intros -> ->. apply (Hret w). by left.
    + destruct (works σ0 !! n) as [[w k]|]; [|done].
      injection Hstep as <-. rewrite complete_work_count in *. simpl. split.
      * lia.
      * intros Hinh Hret.
        rewrite IHeq; [lia|done|intros w' cb' Hin; apply (Hret w'); by right].
Qed.

Lemma work_invoked_once_per_master_call_witness :
  ∃ σ,
    run [ ACall false "geo" 7 (Callback 0 false);
          ACall true "geo" 7 (Callback 1 false);
          AComplete 0 (VStr "US");
          ACall false "geo" 7 (Callback 2 false) ] init = Some σ ∧
    work_count "geo" σ = 1.
Proof.
  eexists. split; [reflexivity|].
  refine (proj2 (work_invoked_once_per_master_call
                   [ ACall false "geo" 7 (Callback 0 false);
                     ACall true "geo" 7 (Callback 1 false);
                     AComplete 0 (VStr "US");
                     ACall false "geo" 7 (Callback 2 false) ]
                   init _ "geo" eq_refl) _ _).
  - reflexivity.
  - intros w cb Hin.
    repeat (apply elem_of_cons in Hin as [Hin|Hin]; [by simplify_eq|]).
    by apply elem_of_nil in Hin.
Defined.

(** Three calls by the master context, two before the task is resolved and
    one after, run the work function three times. *)
Lemma work_invoked_again_by_repeated_master_calls :
  ∃ σ,
    run [ ACall true "geo" 7 (Callback 0 false);
          ACall true "geo" 7 (Callback 1 false);
          AComplete 0 (VStr "US");
          ACall true "geo" 7 (Callback 2 false) ] init = Some σ ∧
    tasks_of σ !! "geo" = Some (EStub (VStr "US")) ∧
    work_count "geo" σ = 3.
Proof. eexists. split; [reflexivity|]. split; reflexivity. Qed.


Lemma tasks_of_World (m : gmap string entry) (h : list (list callback))
    (w : list (nat * closure)) (l : list event) :
  tasks_of (World (Some m) h w l) = m.
Proof. done. Qed.

(** ** Calls for a resolved task *)

(** C3 (as amended): when [computeInMasterFrame] is called for a task whose
    entry is already resolved, the new callback is invoked at once, within the
    call, with the stored result, and the registry is left as it is, whoever
    calls; the work function is not invoked by that call when the caller is
    not the master, and is invoked again when the caller is the master and the
    callback returned. *)
Theorem late_call_delivers_stored_result
    (isMaster : bool) (taskId : string) (work : nat) (cb : callback)
    (σ : world) (r : value) :
  tasks_of σ !! taskId = Some (EStub r) →
  log (fst (computeInMasterFrame isMaster taskId work cb σ))
  = log σ ++ [EvCall isMaster taskId work cb; EvCallback taskId cb r] ∧
  tasks_of (fst (computeInMasterFrame isMaster taskId work cb σ)) = tasks_of σ ∧
  heap (fst (computeInMasterFrame isMaster taskId work cb σ)) = heap σ ∧
  works (fst (computeInMasterFrame isMaster taskId work cb σ))
  = works σ ++ (if isMaster && negb (cb_throws cb)
                then [(work, Closure taskId (EStub r))] else []) ∧
  (isMaster = false →
   works (fst (computeInMasterFrame isMaster taskId work cb σ)) = works σ).
Proof.
  intros Hstub. rewrite (call_resolved _ _ _ _ _ _ Hstub). simpl.
  repeat split. intros ->. simpl. by rewrite app_nil_r.
Qed.

Lemma late_call_delivers_stored_result_witness :
  ∃ σ,
    run [ ACall true "geo" 7 (Callback 0 false);
          AComplete 0 (VStr "US") ] init = Some σ ∧
    log (fst (computeInMasterFrame false "geo" 7 (Callback 1 false) σ))
    = log σ ++ [ EvCall false "geo" 7 (Callback 1 false);
                 EvCallback "geo" (Callback 1 false) (VStr "US") ] ∧
    works (fst (computeInMasterFrame false "geo" 7 (Callback 1 false) σ))
    = works σ.
Proof.
  eexists. split; [reflexivity|].
  match goal with |- log (fst (computeInMasterFrame _ _ _ _ ?s)) = _ ∧ _ =>
    destruct (late_call_delivers_stored_result
                false "geo" 7 (Callback 1 false) s (VStr "US") eq_refl)
      as (Hlog & _ & _ & _ & Hworks)
  end.
  split; [exact Hlog | exact (Hworks eq_refl)].
Defined.

(** A call by the master context for a resolved task runs the work function
    once more. *)
Lemma late_master_call_invokes_work_again :
  ∃ σ,
    run [ ACall true "geo" 7 (Callback 0 false);
          AComplete 0 (VStr "US") ] init = Some σ ∧
    tasks_of σ !! "geo" = Some (EStub (VStr "US")) ∧
    work_count "geo" σ = 1 ∧
    work_count "geo"
      (fst (computeInMasterFrame true "geo" 7 (Callback 1 false) σ)) = 2.
Proof. eexists. split; [reflexivity|]. repeat split. Qed.

(** ** A callback that throws during the fan-out *)

(** C4 (as amended): when a callback queued for a task throws during the
    fan-out, what it throws escapes the completion function: the callbacks
    queued before it and the throwing one have been invoked with the result,
    the callbacks queued after it are not invoked, and the registry is left as
    it was, so the entry does not become resolved. *)
Theorem throwing_callback_stops_fan_out
    (k : closure) (r : value) (σ : world)
    (before after : list callback) (b : callback) :
  queued (cl_cbs k) σ = before ++ b :: after →
  Forall returns before →
  cb_throws b = true →
  complete k r σ
  = (World (ampMasterTasks σ) (heap σ) (works σ)
       (log σ ++ EvComplete (cl_taskId k) r
          :: map (fun c => EvCallback (cl_taskId k) c r) (before ++ [b])),
     Threw (Thrown (cb_id b))).
Proof.
  intros Hq Hbefore Hb. rewrite complete_spec, Hq.
  destruct (called_until_throw before after b Hbefore Hb) as [-> ->]. done.
Qed.

Lemma throwing_callback_stops_fan_out_witness :
  let σ := World (Some {[ "geo" := EArray 0 ]})
             [[Callback 0 false; Callback 1 true; Callback 2 false]]
             [(7, Closure "geo" (EArray 0))] [] in
  complete (Closure "geo" (EArray 0)) (VStr "US") σ
  = (World (Some {[ "geo" := EArray 0 ]})
       [[Callback 0 false; Callback 1 true; Callback 2 false]]
       [(7, Closure "geo" (EArray 0))]
       [ EvComplete "geo" (VStr "US");
         EvCallback "geo" (Callback 0 false) (VStr "US");
         EvCallback "geo" (Callback 1 true) (VStr "US") ],
     Threw (Thrown 1)).
Proof.
  intros σ.
  apply (throwing_callback_stops_fan_out
           (Closure "geo" (EArray 0)) (VStr "US") σ
           [Callback 0 false] [Callback 2 false] (Callback 1 true)).
  - reflexivity.
  - repeat constructor.
  - reflexivity.
Defined.

(** With callbacks A, B, C queued in that order and B throwing, C is never
    invoked and the task stays unresolved. *)
Lemma callback_after_thrower_not_invoked :
  ∃ σ,
    run [ ACall true "geo" 7 (Callback 0 false);
          ACall false "geo" 7 (Callback 1 true);
          ACall false "geo" 7 (Callback 2 false);
          AComplete 0 (VStr "US") ] init = Some σ ∧
    delivered "geo" (log σ)
    = [(Callback 0 false, VStr "US"); (Callback 1 true, VStr "US")] ∧
    times_invoked "geo" (Callback 2 false) (log σ) = 0 ∧
    tasks_of σ !! "geo" = Some (EArray 0).
Proof. eexists. split; [reflexivity|]. repeat split. Qed.

(** ** Calls by a context that is not the master *)

(** C5 (as amended): a call by a context that is not the master writes to the
    master's task registry exactly to register its callback.  Afterwards the
    registry exists.  When the task has no entry (and its name is not one
    inherited from [Object.prototype]) the call allocates a new array holding
    just its callback and stores it under the task; when the entry is a
    waiting array it appends its callback at the end of that array and leaves
    every other array as it is; when the entry is already resolved, or the
    name is inherited, entries and arrays stay as they are.  It never invokes
    the work function, never replaces or removes an entry, never marks an
    entry resolved, and touches no other task's entry. *)
Theorem non_master_call_only_registers
    (taskId : string) (work : nat) (cb : callback) (σ : world) :
  works (fst (computeInMasterFrame false taskId work cb σ)) = works σ ∧
  ampMasterTasks (fst (computeInMasterFrame false taskId work cb σ))
  = Some (tasks_of (fst (computeInMasterFrame false taskId work cb σ))) ∧
  match tasks_of σ !! taskId with
  | Some (EStub r) =>
    tasks_of (fst (computeInMasterFrame false taskId work cb σ)) = tasks_of σ ∧
    heap (fst (computeInMasterFrame false taskId work cb σ)) = heap σ
  | Some (EArray l) =>
    tasks_of (fst (computeInMasterFrame false taskId work cb σ)) = tasks_of σ ∧
    heap (fst (computeInMasterFrame false taskId work cb σ))
    = alter (fun q => q ++ [cb]) l (heap σ)
  | None =>
    if inherited taskId then
      tasks_of (fst (computeInMasterFrame false taskId work cb σ))
      = tasks_of σ ∧
      heap (fst (computeInMasterFrame false taskId work cb σ)) = heap σ
    else
      tasks_of (fst (computeInMasterFrame false taskId work cb σ))
      = <[taskId := EArray (length (heap σ))]> (tasks_of σ) ∧
      heap (fst (computeInMasterFrame false taskId work cb σ))
      = heap σ ++ [[cb]]
  end ∧
  (∀ l q, tasks_of σ !! taskId = Some (EArray l) → heap σ !! l = Some q →
          heap (fst (computeInMasterFrame false taskId work cb σ)) !! l
          = Some (q ++ [cb]) ∧
          ∀ l', l' ≠ l →
            heap (fst (computeInMasterFrame false taskId work cb σ)) !! l'
            = heap σ !! l') ∧
  (∀ t e, tasks_of σ !! t = Some e →
          tasks_of (fst (computeInMasterFrame false taskId work cb σ)) !! t
          = Some e) ∧
  (∀ t r, tasks_of (fst (computeInMasterFrame false taskId work cb σ)) !! t
          = Some (EStub r) →
          tasks_of σ !! t = Some (EStub r)) ∧
  (∀ t, t ≠ taskId →
        tasks_of (fst (computeInMasterFrame false taskId work cb σ)) !! t
        = tasks_of σ !! t) ∧
  (∀ r, tasks_of σ !! taskId = Some (EStub r) →
        tasks_of (fst (computeInMasterFrame false taskId work cb σ))
        = tasks_of σ ∧
        heap (fst (computeInMasterFrame false taskId work cb σ)) = heap σ) ∧
  (∀ l q, heap σ !! l = Some q →
          heap (fst (computeInMasterFrame false taskId work cb σ)) !! l
          = Some q ∨
          heap (fst (computeInMasterFrame false taskId work cb σ)) !! l
          = Some (q ++ [cb])).
Proof.
  destruct (tasks_of σ !! taskId) as [[l|r]|] eqn:Hslot.
  - rewrite (call_waiting _ _ _ _ _ _ Hslot). simpl.
    rewrite app_nil_r.
    split; [done|]. split; [done|]. split; [done|]. split.
    { intros la q [= <-] Hq. split.
      - by rewrite list_lookup_alter_eq, Hq.
      - intros l' Hne. by rewrite list_lookup_alter_ne. }
    repeat split; try done.
    intros l' q Hq. destruct (decide (l = l')) as [<-|Hne].
    + right. by rewrite list_lookup_alter_eq, Hq.
    + left. by rewrite list_lookup_alter_ne.
  - rewrite (call_resolved _ _ _ _ _ _ Hslot). simpl.
    rewrite app_nil_r. repeat split; try done. by left.
  - destruct (inherited taskId) eqn:Hinh.
    + rewrite (call_inherited _ _ _ _ _ Hslot Hinh). simpl.
      repeat split; try done. by left.
    + rewrite (call_fresh _ _ _ _ _ Hslot Hinh). simpl.
      rewrite app_nil_r, !tasks_of_World.
      repeat split; try done.
      * intros t e He. rewrite lookup_insert_ne; [done|].
        intros <-. congruence.
      * intros t r. destruct (decide (taskId = t)) as [<-|Hne].
        -- by rewrite lookup_insert_eq.
        -- by rewrite lookup_insert_ne.
      * intros t Hne. by rewrite lookup_insert_ne.
      * intros l q Hq. left. by apply lookup_app_l_Some.
Qed.

Lemma non_master_call_only_registers_witness :
  tasks_of (fst (computeInMasterFrame false "geo" 7 (Callback 0 false) init))
  = <["geo" := EArray 0]> ∅ ∧
  heap (fst (computeInMasterFrame false "geo" 7 (Callback 0 false) init))
  = [[Callback 0 false]] ∧
  heap (fst (computeInMasterFrame false "geo" 7 (Callback 1 false)
               (World (Some {[ "geo" := EArray 0; "ads" := EArray 1 ]})
                  [[Callback 0 false]; [Callback 5 false]] [] [])))
  = [[Callback 0 false; Callback 1 false]; [Callback 5 false]].
Proof.
  pose proof (proj1 (proj2 (proj2
    (non_master_call_only_registers "geo" 7 (Callback 0 false) init))))
    as Hfresh.
  pose proof (proj1 (proj2 (proj2
    (non_master_call_only_registers "geo" 7 (Callback 1 false)
       (World (Some {[ "geo" := EArray 0; "ads" := EArray 1 ]})
          [[Callback 0 false]; [Callback 5 false]] [] [])))))
    as Hwaiting.
  split; [exact (proj1 Hfresh)|]. split; [exact (proj2 Hfresh)|].
  exact (proj2 Hwaiting).
Defined.

(** The first call for a task, made by a context that is not the master,
    creates the registry, allocates the array and stores the callback. *)
Lemma non_master_call_writes_registry :
  ampMasterTasks init = None ∧
  heap init = [] ∧
  ampMasterTasks
    (fst (computeInMasterFrame false "geo" 7 (Callback 0 false) init))
  = Some {[ "geo" := EArray 0 ]} ∧
  heap (fst (computeInMasterFrame false "geo" 7 (Callback 0 false) init))
  = [[Callback 0 false]].
Proof. repeat split. Qed.


(** ** Reading a log piece by piece *)

Lemma registered_app (t : string) (l1 l2 : list event) :
  registered t (l1 ++ l2) = registered t l1 ++ registered t l2.
Proof.
  induction l1 as [|[m t' w c|t' r|t' c r] l1 IH]; simpl; [done| |done|done].
  destruct (String.eqb t' t); simpl; by rewrite IH.
Qed.

Lemma delivered_app (t : string) (l1 l2 : list event) :
  delivered t (l1 ++ l2) = delivered t l1 ++ delivered t l2.
Proof.
  induction l1 as [|[m t' w c|t' r|t' c r] l1 IH]; simpl; [done|done|done|].
  destruct (String.eqb t' t); simpl; by rewrite IH.
Qed.

Lemma completions_app (t : string) (l1 l2 : list event) :
  completions t (l1 ++ l2) = completions t l1 ++ completions t l2.
Proof.
  induction l1 as [|[m t' w c|t' r|t' c r] l1 IH]; simpl; [done|done| |done].
  destruct (String.eqb t' t); simpl; by rewrite IH.
Qed.

Lemma registered_callbacks (t t' : string) (r : value) (cbs : list callback) :
  registered t (map (fun c => EvCallback t' c r) cbs) = [].
Proof. induction cbs; simpl; done. Qed.

Lemma completions_callbacks (t t' : string) (r : value) (cbs : list callback) :
  completions t (map (fun c => EvCallback t' c r) cbs) = [].
Proof. induction cbs; simpl; done. Qed.

Lemma delivered_callbacks (t t' : string) (r : value) (cbs : list callback) :
  delivered t (map (fun c => EvCallback t' c r) cbs)
  = if String.eqb t' t then map (fun c => (c, r)) cbs else [].
Proof.
  induction cbs as [|c cbs IH]; simpl.
  - by destruct (String.eqb t' t).
  - rewrite IH. by destruct (String.eqb t' t).
Qed.

(** ** Every reachable state is consistent *)

Lemma consistent_init : consistent init.
Proof.
  split; unfold init, tasks_of; simpl; try done.
  intros w k Hin. by apply elem_of_nil in Hin.
Qed.

#[local] Ltac read_log :=
  rewrite ?registered_app, ?delivered_app, ?completions_app; simpl;
  rewrite ?registered_callbacks, ?completions_callbacks, ?delivered_callbacks;
  rewrite ?app_nil_r.

#[local] Ltac other_task t' t :=
  let Hne := fresh "Hne" in
  destruct (String.eqb_spec t' t) as [->|Hne]; [congruence|].

Section CallKeepsConsistent.

Context (isMaster : bool) (taskId : string) (work : nat) (cb : callback).
Context (σ : world) (Hσ : consistent σ).

Lemma consistent_call_inherited :
  tasks_of σ !! taskId = None → inherited taskId = true →
  consistent (fst (computeInMasterFrame isMaster taskId work cb σ)).
Proof.
  intros Hslot Hinh. rewrite (call_inherited _ _ _ _ _ Hslot Hinh). simpl.
  destruct Hσ as [Hinj Hregs Hfresh Hclo Hsilent Honce].
  split; rewrite ?tasks_of_World; simpl.
  - exact Hinj.
  - intros t l Ht. read_log. other_task taskId t.
    rewrite app_nil_r. by apply Hregs.
  - intros t Ht Hi. read_log. other_task taskId t.
    rewrite app_nil_r. by apply Hfresh.
  - exact Hclo.
  - intros t. read_log. apply Hsilent.
  - intros t r. read_log. intros Hc Hall.
    destruct (String.eqb_spec taskId t) as [->|Hne].
    + apply Forall_app in Hall as [Hall _].
      destruct (Honce t r Hc Hall) as [Hstub _]. congruence.
    + rewrite app_nil_r in *. by apply Honce.
Qed.

Lemma consistent_call_fresh :
  tasks_of σ !! taskId = None → inherited taskId = false →
  consistent (fst (computeInMasterFrame isMaster taskId work cb σ)).
Proof.
  intros Hslot Hinh. rewrite (call_fresh _ _ _ _ _ Hslot Hinh). simpl.
  destruct Hσ as [Hinj Hregs Hfresh Hclo Hsilent Honce].
  assert (Hold : ∀ t l, tasks_of σ !! t = Some (EArray l) →
                        l < length (heap σ)).
  { intros t l Ht. apply Hregs in Ht. by apply lookup_lt_Some in Ht. }
  split; rewrite ?tasks_of_World; simpl.
  - intros t1 t2 l.
    destruct (decide (taskId = t1)) as [<-|Hne1];
      destruct (decide (taskId = t2)) as [<-|Hne2];
      rewrite ?lookup_insert_eq, ?lookup_insert_ne by done; try done.
    + intros [= <-] Ht2. apply Hold in Ht2. lia.
    + intros Ht1 [= <-]. apply Hold in Ht1. lia.
    + apply Hinj.
  - intros t l. read_log.
    destruct (decide (taskId = t)) as [<-|Hne].
    + rewrite lookup_insert_eq. intros [= <-].
      rewrite String.eqb_refl, (Hfresh taskId Hslot Hinh). simpl.
      rewrite lookup_app_r by lia. by rewrite Nat.sub_diag.
    + rewrite lookup_insert_ne by done. intros Ht.
      rewrite (proj2 (String.eqb_neq taskId t) Hne), app_nil_r.
      rewrite lookup_app_l by (by eapply Hold). by apply Hregs.
  - intros t. read_log.
    destruct (decide (taskId = t)) as [<-|Hne].
    + by rewrite lookup_insert_eq.
    + rewrite lookup_insert_ne by done. intros Ht Hi.
      rewrite (proj2 (String.eqb_neq taskId t) Hne), app_nil_r.
      by apply Hfresh.
  - intros w k [Hin|Hnew]%elem_of_app.
    + assert (cl_taskId k ≠ taskId) as Hne.
      { intros Heq. destruct (Hclo w k Hin) as [[r Hr]|(l & _ & Hl)];
          congruence. }
      rewrite lookup_insert_ne by done. by apply (Hclo w).
    + destruct isMaster; [|by apply elem_of_nil in Hnew].
      apply list_elem_of_singleton in Hnew as [= -> ->]. right. simpl.
      exists (length (heap σ)). by rewrite lookup_insert_eq.
  - intros t. read_log. intros Hc. destruct (Hsilent t Hc) as [Hno Hd].
    split; [|done]. intros r.
    destruct (decide (taskId = t)) as [<-|Hne].
    + by rewrite lookup_insert_eq.
    + rewrite lookup_insert_ne by done. apply Hno.
  - intros t r. read_log. intros Hc Hall.
    apply Forall_app in Hall as [Hall _].
    destruct (Honce t r Hc Hall) as [Hstub Hd].
    assert (taskId ≠ t) as Hne by congruence.
    rewrite lookup_insert_ne by done.
    by rewrite (proj2 (String.eqb_neq taskId t) Hne), app_nil_r.
Qed.

Lemma consistent_call_waiting (l : nat) :
  tasks_of σ !! taskId = Some (EArray l) →
  consistent (fst (computeInMasterFrame isMaster taskId work cb σ)).
Proof.
  intros Hslot. rewrite (call_waiting _ _ _ _ _ _ Hslot). simpl.
  destruct Hσ as [Hinj Hregs Hfresh Hclo Hsilent Honce].
  split; rewrite ?tasks_of_World; simpl.
  - exact Hinj.
  - intros t l' Ht. read_log.
    destruct (String.eqb_spec taskId t) as [<-|Hne].
    + assert (l' = l) as -> by congruence.
      by rewrite list_lookup_alter_eq, (Hregs taskId l Hslot).
    + rewrite app_nil_r, list_lookup_alter_ne; [by apply Hregs|].
      intros <-. apply Hne. by apply (Hinj taskId t l).
  - intros t Ht Hi. read_log. other_task taskId t.
    rewrite app_nil_r. by apply Hfresh.
  - intros w k [Hin|Hnew]%elem_of_app; [by apply (Hclo w)|].
    destruct isMaster; [|by apply elem_of_nil in Hnew].
    apply list_elem_of_singleton in Hnew as [= -> ->]. right. by exists l.
  - intros t. read_log. apply Hsilent.
  - intros t r. read_log. intros Hc Hall.
    apply Forall_app in Hall as [Hall _].
    destruct (Honce t r Hc Hall) as [Hstub Hd].
    other_task taskId t. by rewrite app_nil_r.
Qed.

Lemma consistent_call_resolved (r : value) :
  tasks_of σ !! taskId = Some (EStub r) →
  consistent (fst (computeInMasterFrame isMaster taskId work cb σ)).
Proof.
  intros Hslot. rewrite (call_resolved _ _ _ _ _ _ Hslot). simpl.
  destruct Hσ as [Hinj Hregs Hfresh Hclo Hsilent Honce].
  split; rewrite ?tasks_of_World; simpl.
  - exact Hinj.
  - intros t l Ht. read_log. other_task taskId t.
    rewrite app_nil_r. by apply Hregs.
  - intros t Ht Hi. read_log. other_task taskId t.
    rewrite app_nil_r. by apply Hfresh.
  - intros w k [Hin|Hnew]%elem_of_app; [by apply (Hclo w)|].
    destruct (isMaster && negb (cb_throws cb));
      [|by apply elem_of_nil in Hnew].
    apply list_elem_of_singleton in Hnew as [= -> ->]. left. by exists r.
  - intros t. read_log. intros Hc. destruct (Hsilent t Hc) as [Hno Hd].
    split; [done|].
    destruct (String.eqb_spec taskId t) as [<-|Hne]; [|by rewrite app_nil_r].
    by destruct (Hno r).
  - intros t r'. read_log. intros Hc Hall.
    apply Forall_app in Hall as [Hall _].
    destruct (Honce t r' Hc Hall) as [Hstub Hd]. split; [done|].
    destruct (String.eqb_spec taskId t) as [<-|Hne].
    + assert (r' = r) as -> by congruence.
      by rewrite Hd, map_app.
    + by rewrite !app_nil_r.
Qed.

Lemma consistent_call :
  consistent (fst (computeInMasterFrame isMaster taskId work cb σ)).
Proof.
  destruct (tasks_of σ !! taskId) as [[l|r]|] eqn:Hslot.
  - by eapply consistent_call_waiting.
  - by eapply consistent_call_resolved.
  - destruct (inherited taskId) eqn:Hinh.
    + by apply consistent_call_inherited.
    + by apply consistent_call_fresh.
Qed.

End CallKeepsConsistent.


Lemma complete_tasks (k : closure) (r : value) (σ : world) :
  tasks_of (fst (complete k r σ))
  = match fan_outcome (queued (cl_cbs k) σ) with
    | Returned => <[cl_taskId k := EStub r]> (tasks_of σ)
    | Threw _ => tasks_of σ
    end.
Proof. rewrite complete_spec. simpl. by destruct (fan_outcome _). Qed.

Lemma complete_log (k : closure) (r : value) (σ : world) :
  log (fst (complete k r σ))
  = log σ ++ EvComplete (cl_taskId k) r
      :: map (fun c => EvCallback (cl_taskId k) c r)
             (called (queued (cl_cbs k) σ)).
Proof. by rewrite complete_spec. Qed.

Lemma complete_works (k : closure) (r : value) (σ : world) :
  works (fst (complete k r σ)) = works σ.
Proof. by rewrite complete_spec. Qed.

Lemma complete_heap (k : closure) (r : value) (σ : world) :
  heap (fst (complete k r σ)) = heap σ.
Proof. by rewrite complete_spec. Qed.

(** A completion leaves every other task's entry alone, and only ever stores
    a stub. *)
Lemma complete_tasks_other (k : closure) (r : value) (σ : world) (t : string) :
  t ≠ cl_taskId k →
  tasks_of (fst (complete k r σ)) !! t = tasks_of σ !! t.
Proof.
  intros Hne. rewrite complete_tasks.
  destruct (fan_outcome _); [|done]. by rewrite lookup_insert_ne.
Qed.

Lemma complete_tasks_array (k : closure) (r : value) (σ : world)
    (t : string) (l : nat) :
  tasks_of (fst (complete k r σ)) !! t = Some (EArray l) →
  tasks_of σ !! t = Some (EArray l).
Proof.
  rewrite complete_tasks. destruct (fan_outcome _); [|done].
  destruct (decide (cl_taskId k = t)) as [<-|Hne].
  - by rewrite lookup_insert_eq.
  - by rewrite lookup_insert_ne.
Qed.

Lemma complete_tasks_none (k : closure) (r : value) (σ : world) (t : string) :
  tasks_of (fst (complete k r σ)) !! t = None → tasks_of σ !! t = None.
Proof.
  rewrite complete_tasks. destruct (fan_outcome _); [|done].
  destruct (decide (cl_taskId k = t)) as [<-|Hne].
  - by rewrite lookup_insert_eq.
  - by rewrite lookup_insert_ne.
Qed.

(** What a completion function finds queued while its task still waits. *)
Lemma queued_waiting (σ : world) (w : nat) (k : closure) (l : nat) :
  consistent σ → (w, k) ∈ works σ →
  tasks_of σ !! cl_taskId k = Some (EArray l) →
  queued (cl_cbs k) σ = registered (cl_taskId k) (log σ).
Proof.
  intros Hσ Hin Hslot.
  destruct (closure_entry σ Hσ w k Hin) as [[r Hr]|(l' & Hcbs & Hl')];
    [congruence|].
  unfold queued. rewrite Hcbs.
  by rewrite (queue_regs σ Hσ _ _ Hl').
Qed.

Lemma consistent_complete (w : nat) (k : closure) (r : value) (σ : world) :
  consistent σ → (w, k) ∈ works σ → consistent (fst (complete k r σ)).
Proof.
  intros Hσ Hin.
  pose proof Hσ as [Hinj Hregs Hfresh Hclo Hsilent Honce].
  split.
  - intros t1 t2 l H1%complete_tasks_array H2%complete_tasks_array.
    by apply (Hinj t1 t2 l).
  - intros t l Ht%complete_tasks_array. rewrite complete_log, complete_heap.
    read_log. by apply Hregs.
  - intros t Ht%complete_tasks_none Hi. rewrite complete_log.
    read_log. by apply Hfresh.
  - intros w1 k1 Hin1. rewrite complete_works in Hin1.
    destruct (decide (cl_taskId k1 = cl_taskId k)) as [Heq|Hne].
    + rewrite complete_tasks, Heq. destruct (fan_outcome _).
      * left. exists r. by rewrite lookup_insert_eq.
      * rewrite <- Heq. by apply (Hclo w1).
    + rewrite complete_tasks_other by done. by apply (Hclo w1).
  - intros t. rewrite complete_log. read_log.
    destruct (String.eqb_spec (cl_taskId k) t) as [<-|Hne].
    + intros Hc. by apply app_nil in Hc as [_ ?].
    + rewrite !app_nil_r. intros Hc. destruct (Hsilent t Hc) as [Hno Hd].
      split; [|done]. intros r'. rewrite complete_tasks_other by done.
      apply Hno.
  - intros t r'. rewrite complete_log. read_log.
    destruct (String.eqb_spec (cl_taskId k) t) as [<-|Hne].
    + intros Hc Hall.
      assert (completions (cl_taskId k) (log σ) = [] ∧ r = r') as [Hc0 <-].
      { destruct (completions (cl_taskId k) (log σ)) as [|x [|y rest]];
          simpl in Hc; by simplify_eq. }
      destruct (Hsilent _ Hc0) as [Hno Hd].
      destruct (Hclo w k Hin) as [[r' Hr']|(l & Hcbs & Hl)];
        [by destruct (Hno r')|].
      rewrite complete_tasks, (queued_waiting σ w k l Hσ Hin Hl).
      destruct (called_all _ Hall) as [-> ->].
      rewrite lookup_insert_eq, Hd. done.
    + rewrite !app_nil_r. intros Hc Hall.
      rewrite complete_tasks_other by done. by apply Honce.
Qed.

Lemma consistent_step (a : action) (σ σ' : world) :
  consistent σ → step a σ = Some σ' → consistent σ'.
Proof.
  intros Hσ. destruct a as [m t w cb | n r]; simpl.
  - intros [= <-]. by apply consistent_call.
  - destruct (works σ !! n) as [[w k]|] eqn:Hn; [|done].
    intros [= <-]. apply (consistent_complete w); [done|].
    by eapply list_elem_of_lookup_2.
Qed.

Lemma consistent_run (acts : list action) (σ σ' : world) :
  consistent σ → run acts σ = Some σ' → consistent σ'.
Proof.
  revert σ. induction acts as [|a acts IH]; intros σ Hσ; simpl.
  - by intros [= <-].
  - destruct (step a σ) as [σ1|] eqn:Hstep; [|done].
    apply IH. by eapply consistent_step.
Qed.

Lemma reachable_consistent (acts : list action) (σ : world) :
  run acts init = Some σ → consistent σ.
Proof. apply consistent_run, consistent_init. Qed.

(** ** The log records the calls *)

Lemma call_log (m : bool) (t : string) (w : nat) (cb : callback) (σ : world) :
  ∃ evs, log (fst (computeInMasterFrame m t w cb σ))
         = log σ ++ EvCall m t w cb :: evs ∧
         ∀ t', registered t' evs = [].
Proof.
  destruct (tasks_of σ !! t) as [[l|r]|] eqn:Hslot.
  - rewrite (call_waiting _ _ _ _ _ _ Hslot). by exists [].
  - rewrite (call_resolved _ _ _ _ _ _ Hslot). by exists [EvCallback t cb r].
  - destruct (inherited t) eqn:Hinh.
    + rewrite (call_inherited _ _ _ _ _ Hslot Hinh). by exists [].
    + rewrite (call_fresh _ _ _ _ _ Hslot Hinh). by exists [].
Qed.

(** The callbacks the log has as passed for a task are those of the calls
    made, in call order. *)
Lemma registered_run (acts : list action) (σ0 σ : world) (t : string) :
  run acts σ0 = Some σ →
  registered t (log σ) = registered t (log σ0) ++ passed t acts.
Proof.
  revert σ0. induction acts as [|a acts IH]; intros σ0; simpl.
  - intros [= <-]. by rewrite app_nil_r.
  - destruct (step a σ0) as [σ1|] eqn:Hstep; [|done].
    intros Hrun. rewrite (IH σ1 Hrun).
    destruct a as [m t' w cb | n r]; simpl in Hstep.
    + injection Hstep as <-.
      destruct (call_log m t' w cb σ0) as (evs & -> & Hevs).
      rewrite registered_app. simpl.
      destruct (String.eqb t' t); simpl; rewrite Hevs, <- app_assoc; done.
    + destruct (works σ0 !! n) as [[w k]|]; [|done].
      injection Hstep as <-. rewrite complete_log. by read_log.
Qed.

Lemma registered_passed (acts : list action) (σ : world) (t : string) :
  run acts init = Some σ → registered t (log σ) = passed t acts.
Proof. intros Hrun. by rewrite (registered_run acts init σ t Hrun). Qed.

(** ** Delivery *)

Lemma count_paired (cb : callback) (r : value) (cbs : list callback) :
  length (List.filter (fun cr : callback * value => bool_decide (fst cr = cb))
            (map (fun c => (c, r)) cbs))
  = length (List.filter (fun c => bool_decide (c = cb)) cbs).
Proof.
  induction cbs as [|c cbs IH]; simpl; [done|].
  destruct (bool_decide (c = cb)); simpl; by rewrite IH.
Qed.

(** C2 (as amended): for a task whose completion function has been invoked
    exactly once and whose callbacks all return, every callback passed to a
    call of [computeInMasterFrame] for the task has been invoked exactly once
    per call it was passed to, in call order, and every one of those
    invocations received the result given to the completion function. *)
Theorem callbacks_delivered_once_with_same_result
    (acts : list action) (σ : world) (t : string) (r : value) :
  run acts init = Some σ →
  completions t (log σ) = [r] →
  Forall returns (passed t acts) →
  delivered t (log σ) = map (fun c => (c, r)) (passed t acts) ∧
  (∀ cb, times_invoked t cb (log σ) = times_passed t cb acts) ∧
  (∀ cb r', (cb, r') ∈ delivered t (log σ) → r' = r).
Proof.
  intros Hrun Hc Hall. rewrite <- (registered_passed acts σ t Hrun) in Hall.
  destruct (resolved_once σ (reachable_consistent acts σ Hrun) t r Hc Hall)
    as [_ Hd].
  rewrite (registered_passed acts σ t Hrun) in Hd.
  split; [exact Hd|]. split.
  - intros cb. unfold times_invoked, times_passed.
    rewrite Hd. apply count_paired.
  - intros cb r'. rewrite Hd.
    intros (c & [= _ ->] & _)%list_elem_of_fmap. done.
Qed.

Lemma callbacks_delivered_once_with_same_result_witness :
  ∃ σ,
    run [ ACall false "geo" 7 (Callback 0 false);
          ACall true "geo" 7 (Callback 1 false);
          ACall false "geo" 7 (Callback 2 false);
          AComplete 0 (VStr "US");
          ACall false "geo" 7 (Callback 3 false) ] init = Some σ ∧
    delivered "geo" (log σ)
    = [ (Callback 0 false, VStr "US"); (Callback 1 false, VStr "US");
        (Callback 2 false, VStr "US"); (Callback 3 false, VStr "US") ].
Proof.
  eexists. split; [reflexivity|].
  refine (proj1 (callbacks_delivered_once_with_same_result
                   [ ACall false "geo" 7 (Callback 0 false);
                     ACall true "geo" 7 (Callback 1 false);
                     ACall false "geo" 7 (Callback 2 false);
                     AComplete 0 (VStr "US");
                     ACall false "geo" 7 (Callback 3 false) ]
                   _ "geo" (VStr "US") eq_refl _ _)).
  - reflexivity.
  - repeat constructor.
Defined.

(** When the master context calls twice and both completion functions are
    invoked, every callback is invoked twice, with two different results. *)
Lemma callbacks_invoked_twice_after_two_master_calls :
  ∃ σ,
    run [ ACall true "geo" 7 (Callback 0 false);
          ACall true "geo" 7 (Callback 1 false);
          AComplete 0 (VStr "US");
          AComplete 1 (VStr "CA") ] init = Some σ ∧
    times_passed "geo" (Callback 0 false)
      [ ACall true "geo" 7 (Callback 0 false);
        ACall true "geo" 7 (Callback 1 false);
        AComplete 0 (VStr "US");
        AComplete 1 (VStr "CA") ] = 1 ∧
    times_invoked "geo" (Callback 0 false) (log σ) = 2 ∧
    delivered "geo" (log σ)
    = [ (Callback 0 false, VStr "US"); (Callback 1 false, VStr "US");
        (Callback 0 false, VStr "CA"); (Callback 1 false, VStr "CA") ].
Proof. eexists. split; [reflexivity|]. repeat split. Qed.

(** ** Order of the fan-out *)

(** C6: the callbacks passed for a task before it is resolved are invoked by
    the fan-out, within the call of the completion function, in exactly the
    order in which they were passed: the fan-out goes through them in call
    order (stopping only at a callback that throws), so callbacks that return
    are all invoked, first passed first, and the task is resolved. *)
Theorem fan_out_in_enqueue_order
    (acts : list action) (σ : world) (n w : nat) (k : closure) (l : nat)
    (r : value) :
  run acts init = Some σ →
  works σ !! n = Some (w, k) →
  tasks_of σ !! cl_taskId k = Some (EArray l) →
  ∃ σ',
    step (AComplete n r) σ = Some σ' ∧
    log σ'
    = log σ ++ EvComplete (cl_taskId k) r
        :: map (fun c => EvCallback (cl_taskId k) c r)
               (called (passed (cl_taskId k) acts)) ∧
    called (passed (cl_taskId k) acts) `prefix_of` passed (cl_taskId k) acts ∧
    (Forall returns (passed (cl_taskId k) acts) →
     called (passed (cl_taskId k) acts) = passed (cl_taskId k) acts ∧
     tasks_of σ' !! cl_taskId k = Some (EStub r)).
Proof.
  intros Hrun Hn Hslot. simpl. rewrite Hn. eexists. split; [reflexivity|].
  pose proof (reachable_consistent acts σ Hrun) as Hσ.
  assert ((w, k) ∈ works σ) as Hin by (by eapply list_elem_of_lookup_2).
  rewrite complete_tasks, complete_log.
  rewrite (queued_waiting σ w k l Hσ Hin Hslot).
  rewrite (registered_passed acts σ _ Hrun).
  split; [done|]. split; [apply called_prefix|].
  intros Hall. destruct (called_all _ Hall) as [Hcalled ->].
  split; [done|]. by rewrite lookup_insert_eq.
Qed.

Lemma fan_out_in_enqueue_order_witness :
  ∃ σ σ',
    run [ ACall false "geo" 7 (Callback 0 false);
          ACall true "geo" 7 (Callback 1 false);
          ACall false "geo" 7 (Callback 2 false) ] init = Some σ ∧
    step (AComplete 0 (VStr "US")) σ = Some σ' ∧
    log σ'
    = log σ ++ [ EvComplete "geo" (VStr "US");
                 EvCallback "geo" (Callback 0 false) (VStr "US");
                 EvCallback "geo" (Callback 1 false) (VStr "US");
                 EvCallback "geo" (Callback 2 false) (VStr "US") ].
Proof.
  eexists.
  destruct (fan_out_in_enqueue_order
              [ ACall false "geo" 7 (Callback 0 false);
                ACall true "geo" 7 (Callback 1 false);
                ACall false "geo" 7 (Callback 2 false) ]
              _ 0 7 (Closure "geo" (EArray 0)) 0 (VStr "US")
              eq_refl eq_refl eq_refl) as (σ' & Hstep & Hlog & _).
  exists σ'. split; [reflexivity|]. split; [exact Hstep | exact Hlog].
Defined.


(** * Further properties of the validators *)

(** ** Strings *)

Lemma prefix_nil_l (s : string) : String.prefix "" s = true.
Proof. by destruct s. Qed.

Lemma prefix_cons (a b : Ascii.ascii) (x s : string) :
  String.prefix (String a x) (String b s) = true
  ↔ a = b ∧ String.prefix x s = true.
Proof.
  rewrite !String.prefix_correct. simpl. split.
  - intros [= -> H]. done.
  - intros [-> ->]. done.
Qed.

Lemma prefix_cons_nil (a : Ascii.ascii) (x : string) :
  String.prefix (String a x) "" = false.
Proof.
  destruct (String.prefix (String a x) "") eqn:H; [|done].
  apply String.prefix_correct in H. done.
Qed.

Lemma prefix_starts_with (x s : string) :
  String.prefix x s = true ↔ starts_with x s.
Proof.
  unfold starts_with. revert s. induction x as [|a x IH]; intros s.
  - rewrite prefix_nil_l. split; [|done]. intros _. by exists s.
  - destruct s as [|b s].
    + rewrite prefix_cons_nil. split; [done|]. by intros [rest ?].
    + rewrite prefix_cons, IH. split.
      * intros [-> [rest ->]]. by exists rest.
      * intros [rest [= -> ->]]. split; [done|]. by exists rest.
Qed.

Lemma index_cons (x : string) (b : Ascii.ascii) (s : string) :
  String.index 0 x (String b s)
  = if String.prefix x (String b s) then Some 0
    else match String.index 0 x s with
         | Some n => Some (S n)
         | None => None
         end.
Proof. reflexivity. Qed.

Lemma index_zero (x s : string) :
  String.index 0 x s = Some 0 ↔ String.prefix x s = true.
Proof.
  destruct s as [|b s].
  - destruct x as [|a x]; [done|]. split; intros H; discriminate H.
  - rewrite index_cons. destruct (String.prefix x (String b s)); [done|].
    destruct (String.index 0 x s); split; intros H; discriminate H.
Qed.

Lemma string_indexOf_zero (s x : string) :
  string_indexOf s x = 0%Z ↔ starts_with x s.
Proof.
  rewrite <- prefix_starts_with, <- index_zero. unfold string_indexOf.
  destruct (String.index 0 x s) as [[|i]|]; split; try done; lia.
Qed.

Lemma index_found (x s : string) :
  is_Some (String.index 0 x s) ↔ occurs_in x s.
Proof.
  unfold occurs_in. revert x. induction s as [|b s IH]; intros x.
  - simpl. destruct x as [|a x]; split.
    + intros _. by exists "", "".
    + intros _. by eexists.
    + by intros [? ?].
    + intros ([|c before] & rest & H); simpl in H; discriminate.
  - rewrite index_cons.
    destruct (String.prefix x (String b s)) eqn:Hp.
    + split; [|by eexists]. intros _.
      apply prefix_starts_with in Hp as [rest Hrest].
      exists "", rest. by rewrite Hrest.
    + destruct (IH x) as [IH1 IH2]. split.
      * intros Hsome.
        destruct (String.index 0 x s) as [n|]; [|by destruct Hsome].
        destruct (IH1 ltac:(by eexists)) as (before & rest & ->).
        by exists (String b before), rest.
      * intros ([|c before] & rest & H); simpl in H.
        -- assert (String.prefix x (String b s) = true); [|congruence].
           apply prefix_starts_with. by exists rest.
        -- injection H as -> ->.
           destruct IH2 as [n ->]; [by exists before, rest | by eexists].
Qed.

(** ** validateSrcPrefix: which sources pass *)

(** With steps to spare, the loop started at [p] reads up to the first hit at
    or after [p], or up to [length a] when there is none, and returns early
    exactly when there is a hit. *)
Lemma scan_first_hit (a : list string) (s : string) :
  ∀ steps p, p ≤ S (length a) → S (length a) - p < steps →
  ∃ k, p ≤ S k ∧ k ≤ length a ∧
    snd (scan a s p steps) = seq p (S k - p) ∧
    (∀ i, p ≤ i → i < k → ¬ hit a s i) ∧
    (fst (scan a s p steps) = true ↔ p ≤ k ∧ hit a s k) ∧
    (fst (scan a s p steps) = false → k = length a).
Proof.
  induction steps as [|steps IH]; intros p Hp Hsteps; [lia|].
  destruct (decide (p = S (length a))) as [->|Hne].
  - rewrite scan_beyond by lia. exists (length a).
    rewrite Nat.sub_diag. simpl.
    split; [lia|]. split; [lia|]. split; [done|]. split; [intros; lia|].
    split; [|done]. split; [done|]. intros [? _]. lia.
  - simpl. destruct (Nat.leb_spec p (length a)) as [Hle|Hgt]; [|lia].
    destruct (string_indexOf s (search_string (a !! p)) =? 0)%Z eqn:Hhit.
    + apply Z.eqb_eq in Hhit. exists p. simpl.
      replace (S p - p) with 1 by lia. simpl.
      split; [lia|]. split; [lia|]. split; [done|]. split; [intros; lia|].
      split; [by split|]. done.
    + apply Z.eqb_neq in Hhit.
      destruct (IH (S p) ltac:(lia) ltac:(lia))
        as (k & Hk1 & Hk2 & Hread & Hbefore & Hfound & Hnot).
      destruct (scan a s (S p) steps) as [found visited]. simpl in *.
      destruct (decide (k = p)) as [->|Hkp].
      * (* nothing is read after [p] *)
        exists p. rewrite Hread, Nat.sub_diag.
        replace (S p - p) with 1 by lia.
        split; [lia|]. split; [lia|]. split; [done|]. split; [intros; lia|].
        split; [split|].
        -- intros ->. destruct Hfound as [Hf _]. destruct (Hf eq_refl). lia.
        -- intros [_ ?]. done.
        -- intros ->. apply Hnot. done.
      * exists k. rewrite Hread.
        replace (S k - p) with (S (k - p)) by lia.
        split; [lia|]. split; [lia|]. split; [done|]. split; [|split; [split|]].
        -- intros i Hi1 Hi2. destruct (decide (i = p)) as [->|Hip]; [done|].
           apply Hbefore; lia.
        -- intros ->. destruct Hfound as [Hf _]. destruct (Hf eq_refl).
           split; [lia|done].
        -- intros [_ Hh]. apply Hfound. split; [lia|done].
        -- intros ->. by apply Hnot.
Qed.

Lemma hit_listed (a : list string) (s : string) (i : nat) :
  hit a s i →
  (∃ x, a !! i = Some x ∧ starts_with x s) ∨
  (a !! i = None ∧ starts_with "undefined" s).
Proof.
  unfold hit. rewrite string_indexOf_zero.
  destruct (a !! i) as [x|]; simpl; eauto.
Qed.

(** X1: for a defined [src], [validateSrcPrefix] returns exactly when one of
    the listed prefixes starts [src] or [src] starts with the text
    "undefined" (what the read past the end of the list is converted to), and
    otherwise throws the error "Invalid src " followed by [src]. *)
Theorem validateSrcPrefix_accepts_iff (prefix : prefix_arg) (src : string) :
  (validateSrcPrefix prefix (Some src) = Returned ↔
     (∃ x, x ∈ as_array prefix ∧ starts_with x src) ∨
     starts_with "undefined" src) ∧
  (validateSrcPrefix prefix (Some src) = Returned ∨
   validateSrcPrefix prefix (Some src) = Threw (Error ("Invalid src " +:+ src))).
Proof.
  unfold validateSrcPrefix, validateSrcPrefix_trace.
  destruct (scan_first_hit (as_array prefix) src
              (scan_budget (as_array prefix)) 0 ltac:(lia)
              ltac:(unfold scan_budget; lia))
    as (k & _ & Hk & _ & Hbefore & Hfound & Hnot).
  destruct (scan (as_array prefix) src 0 (scan_budget (as_array prefix)))
    as [found visited]. simpl in *.
  destruct found; simpl.
  - split; [|by left]. split; [|done]. intros _.
    destruct Hfound as [Hf _]. destruct (Hf eq_refl) as [_ Hhit].
    apply hit_listed in Hhit as [(x & Hx & Hs)|[_ Hs]]; [left|by right].
    exists x. split; [|done]. by eapply list_elem_of_lookup_2.
  - split; [|by right]. split; [done|]. intros Hany. exfalso.
    specialize (Hnot eq_refl). subst k.
    assert (∀ i, i ≤ length (as_array prefix) → ¬ hit (as_array prefix) src i)
      as Hno.
    { intros i Hi Hhit. destruct (decide (i = length (as_array prefix)))
        as [->|Hne].
      - destruct Hfound as [_ Hf].
        assert (false = true) by (apply Hf; split; [lia|done]). done.
      - apply (Hbefore i); [lia|lia|done]. }
    destruct Hany as [(x & Hx & Hs)|Hs].
    + apply list_elem_of_lookup in Hx as [i Hi].
      apply (Hno i).
      * apply lookup_lt_Some in Hi. lia.
      * unfold hit. rewrite Hi. by apply string_indexOf_zero.
    + apply (Hno (length (as_array prefix))); [done|].
      unfold hit. rewrite (proj2 (lookup_ge_None _ _) (le_n _)).
      by apply string_indexOf_zero.
Qed.


(** ** validateSrcContains *)

(** X3: [validateSrcContains] returns exactly when the text occurs somewhere
    in [src] (the empty text always does) and otherwise throws the error
    "Invalid src " followed by [src]; on an undefined [src] it fails with a
    TypeError instead. *)
Theorem validateSrcContains_accepts_iff (search src : string) :
  (validateSrcContains search (Some src) = Returned ↔ occurs_in search src) ∧
  (validateSrcContains search (Some src) = Returned ∨
   validateSrcContains search (Some src)
   = Threw (Error ("Invalid src " +:+ src))) ∧
  validateSrcContains search None = Threw TypeError ∧
  validateSrcContains "" (Some src) = Returned.
Proof.
  assert (∀ x, validateSrcContains x (Some src) = Returned ↔ occurs_in x src)
    as Hiff.
  { intros x. rewrite <- index_found.
    unfold validateSrcContains, string_indexOf.
    destruct (String.index 0 x src) as [n|]; simpl.
    - destruct (Z.eqb_spec (Z.of_nat n) (-1)) as [?|_]; [lia|].
      split; [by eexists | done].
    - split; [done | by intros [? ?]]. }
  split; [apply Hiff|]. split; [|split; [done|]].
  - unfold validateSrcContains.
    destruct (string_indexOf src search =? -1)%Z; [by right | by left].
  - apply Hiff. by exists "", src.
Qed.

(** ** validateDataExists *)

Lemma validateDataExists_app (data : object) (l1 l2 : list string) :
  Forall (fun f => truthy (js_get data f) = true) l1 →
  validateDataExists data (l1 ++ l2) = validateDataExists data l2.
Proof.
  induction 1 as [|f l1 Hf _ IH]; simpl; [done|].
  unfold user_assert. by rewrite Hf.
Qed.

(** X4: [validateDataExists] returns exactly when every mandatory field has a
    truthy value in [data], so a field bound to [0], the empty string or
    [false] counts as missing; when it throws, the error names the first
    mandatory field, in list order, whose value is falsy. *)
Theorem validateDataExists_verdict
    (data : object) (mandatoryFields : list string) :
  (validateDataExists data mandatoryFields = Returned ↔
     Forall (fun f => truthy (js_get data f) = true) mandatoryFields) ∧
  (∀ before field rest,
     mandatoryFields = before ++ field :: rest →
     Forall (fun f => truthy (js_get data f) = true) before →
     truthy (js_get data field) = false →
     validateDataExists data mandatoryFields
     = Threw (UserError missing_attribute_message
                [js_get data "type"; VStr field])).
Proof.
  split.
  - induction mandatoryFields as [|f l IH]; simpl; [by split|].
    unfold user_assert. destruct (truthy (js_get data f)) eqn:Hf.
    + rewrite IH. split; [by constructor|]. by intros [_ ?]%Forall_cons.
    + split; [done|]. intros [? _]%Forall_cons. congruence.
  - intros before field rest -> Hbefore Hfield.
    rewrite validateDataExists_app by done. simpl.
    unfold user_assert. by rewrite Hfield.
Qed.

Lemma validateDataExists_verdict_witness :
  let data := Object [("type", VStr "ad"); ("src", VStr "x.js");
                      ("slot", VNum 0)] [] in
  validateDataExists data ["src"; "slot"; "id"]
  = Threw (UserError missing_attribute_message [VStr "ad"; VStr "slot"]).
Proof.
  intros data.
  apply (proj2 (validateDataExists_verdict data ["src"; "slot"; "id"])
           ["src"] "slot" ["id"]).
  - reflexivity.
  - repeat constructor.
  - reflexivity.
Defined.


(** ** validateData and checkData *)

Lemma mem_elem_of (x : string) (l : list string) : mem x l = true ↔ x ∈ l.
Proof.
  unfold mem. rewrite existsb_exists. split.
  - intros (y & Hy & ->%String.eqb_eq). by apply list_elem_of_In.
  - intros Hx. exists x. split; [by apply list_elem_of_In|].
    apply String.eqb_refl.
Qed.

Lemma array_indexOf_range (a : list string) (x : string) :
  (-1 ≤ array_indexOf a x)%Z.
Proof.
  induction a as [|y a IH]; simpl; [lia|].
  destruct (String.eqb y x); [lia|].
  destruct (array_indexOf a x =? -1)%Z; lia.
Qed.

Lemma array_indexOf_absent (a : list string) (x : string) :
  (array_indexOf a x =? -1)%Z = negb (mem x a).
Proof.
  induction a as [|y a IH]; simpl; [done|].
  rewrite (String.eqb_sym x y). destruct (String.eqb y x); simpl; [done|].
  rewrite <- IH. pose proof (array_indexOf_range a x).
  destruct (Z.eqb_spec (array_indexOf a x) (-1)) as [Heq|Hne]; [done|].
  apply Z.eqb_neq. lia.
Qed.

Lemma has_key_elem_of (k : string) (l : list (string * value)) :
  has_key k l = true ↔ k ∈ map fst l.
Proof.
  unfold has_key. induction l as [|[k' v] l IH]; simpl.
  - split; [done|]. intros H. by apply elem_of_nil in H.
  - rewrite elem_of_cons. destruct (String.eqb_spec k k') as [->|Hne].
    + split; [by left | done].
    + rewrite IH. split; [by right|]. by intros [?|?].
Qed.

Lemma js_hasOwnProperty_spec (data : object) (field : string) :
  js_hasOwnProperty data field
  = if shadows_hasOwnProperty data then None
    else Some (has_key field (own data)).
Proof. done. Qed.

(** A payload that shadows [hasOwnProperty] has something to enumerate. *)
Lemma shadowing_enumerates (data : object) :
  shadows_hasOwnProperty data = true → for_in_keys data ≠ [].
Proof.
  unfold shadows_hasOwnProperty, for_in_keys. intros Hs Hnil.
  apply app_eq_nil in Hnil as [Hown Hproto].
  assert (has_key "hasOwnProperty" (own data) = false) as Hno.
  { destruct (has_key "hasOwnProperty" (own data)) eqn:H; [|done].
    apply has_key_elem_of in H. rewrite Hown in H.
    by apply elem_of_nil in H. }
  rewrite Hno in Hs. simpl in Hs. apply has_key_elem_of in Hs.
  assert ("hasOwnProperty"
          ∈ List.filter (fun k => negb (has_key k (own data)))
              (map fst (proto_enum data))) as Hin.
  { apply list_elem_of_In, filter_In. split; [by apply list_elem_of_In|].
    by rewrite Hno. }
  rewrite Hproto in Hin. by apply elem_of_nil in Hin.
Qed.

Lemma validateData_loop_shadowed (data : object)
    (allowedFields fields : list string) :
  shadows_hasOwnProperty data = true → fields ≠ [] →
  validateData_loop data allowedFields fields = Threw TypeError.
Proof.
  intros Hs Hne. destruct fields as [|f rest]; [done|]. simpl.
  by rewrite js_hasOwnProperty_spec, Hs.
Qed.

(** Without shadowing, the loop reports the first own field that is unknown. *)
Lemma validateData_loop_first_unknown (data : object)
    (allowedFields fields : list string) :
  shadows_hasOwnProperty data = false →
  validateData_loop data allowedFields fields
  = match List.find (fun f => has_key f (own data)
                              && unknown_field allowedFields f) fields with
    | Some field =>
      Threw (UserError unknown_attribute_message
               [js_get data "type"; VStr field])
    | None => Returned
    end.
Proof.
  intros Hs. induction fields as [|f rest IH]; simpl; [done|].
  rewrite js_hasOwnProperty_spec, Hs. unfold unknown_field at 1.
  destruct (has_key f (own data)); simpl; [|done].
  destruct (js_in f defaultAvailableFields); simpl; [done|].
  unfold user_assert. simpl. rewrite array_indexOf_absent, negb_involutive.
  by destruct (mem f allowedFields).
Qed.

Lemma find_none_all {A} (P : A → bool) (l : list A) :
  (∀ x, x ∈ l → P x = false) → List.find P l = None.
Proof.
  induction l as [|x l IH]; simpl; [done|]. intros H.
  rewrite (H x) by (by left). apply IH. intros y Hy. apply H. by right.
Qed.

Lemma find_ext_in {A} (P Q : A → bool) (l : list A) :
  (∀ x, x ∈ l → P x = Q x) → List.find P l = List.find Q l.
Proof.
  induction l as [|x l IH]; simpl; [done|]. intros H.
  rewrite (H x) by (by left). destruct (Q x); [done|].
  apply IH. intros y Hy. apply H. by right.
Qed.

Lemma find_app {A} (P : A → bool) (l1 l2 : list A) :
  List.find P (l1 ++ l2)
  = match List.find P l1 with
    | Some x => Some x
    | None => List.find P l2
    end.
Proof.
  induction l1 as [|x l1 IH]; simpl; [done|]. by destruct (P x).
Qed.

(** The first own field of [data] that [validateData] does not know. *)
Lemma first_unknown_own (data : object) (allowedFields : list string) :
  List.find (fun f => has_key f (own data) && unknown_field allowedFields f)
    (for_in_keys data)
  = List.find (unknown_field allowedFields) (map fst (own data)).
Proof.
  unfold for_in_keys. rewrite find_app.
  rewrite (find_none_all _ (List.filter _ _)).
  - rewrite (find_ext_in _ (unknown_field allowedFields) (map fst (own data))).
    + by destruct (List.find _ _).
    + intros f Hf. apply has_key_elem_of in Hf. by rewrite Hf.
  - intros f [_ Hf]%list_elem_of_In%filter_In.
    apply negb_true_iff in Hf. by rewrite Hf.
Qed.

Lemma validateData_closed_form (data : object) (allowedFields : list string) :
  validateData data allowedFields
  = if shadows_hasOwnProperty data then Threw TypeError
    else match List.find (unknown_field allowedFields)
                 (map fst (own data)) with
         | Some field =>
           Threw (UserError unknown_attribute_message
                    [js_get data "type"; VStr field])
         | None => Returned
         end.
Proof.
  unfold validateData. destruct (shadows_hasOwnProperty data) eqn:Hs.
  - apply validateData_loop_shadowed; [done|]. by apply shadowing_enumerates.
  - rewrite validateData_loop_first_unknown by done.
    by rewrite first_unknown_own.
Qed.

(** X5: [validateData] fails with a TypeError when a stored value shadows
    [hasOwnProperty]; otherwise it goes through the own properties of [data]
    in enumeration order and throws the unknown-attribute error for the first
    one that is neither reachable in [defaultAvailableFields] nor listed in
    [allowedFields], and returns when there is none.  Properties that [data]
    merely inherits play no part. *)
Theorem validateData_reports_first_unknown_own_field
    (data : object) (allowedFields : list string) :
  validateData data allowedFields
  = if shadows_hasOwnProperty data then Threw TypeError
    else match List.find (unknown_field allowedFields)
                 (map fst (own data)) with
         | Some field =>
           Threw (UserError unknown_attribute_message
                    [js_get data "type"; VStr field])
         | None => Returned
         end.
Proof. apply validateData_closed_form. Qed.

Lemma unknown_field_same (l1 l2 : list string) (f : string) :
  (∀ x, x ∈ l1 ↔ x ∈ l2) → unknown_field l1 f = unknown_field l2 f.
Proof.
  intros Hsame. unfold unknown_field.
  assert (mem f l1 = mem f l2) as ->; [|done].
  destruct (mem f l1) eqn:H1, (mem f l2) eqn:H2; try done.
  - apply mem_elem_of, Hsame, mem_elem_of in H1. congruence.
  - apply mem_elem_of, Hsame, mem_elem_of in H2. congruence.
Qed.

(** X6: the outcome of [validateData], the error included, depends on
    [allowedFields] only through the set of its elements: two lists with the
    same elements, in any order and with any repetitions, give the same
    outcome; and a payload that passes keeps passing when fields are added to
    the list. *)
Theorem validateData_depends_on_allowed_set
    (data : object) (l1 l2 : list string) :
  ((∀ x, x ∈ l1 ↔ x ∈ l2) → validateData data l1 = validateData data l2) ∧
  ((∀ x, x ∈ l1 → x ∈ l2) →
   validateData data l1 = Returned → validateData data l2 = Returned).
Proof.
  rewrite !validateData_closed_form. split.
  - intros Hsame. destruct (shadows_hasOwnProperty data); [done|].
    rewrite (find_ext_in (unknown_field l1) (unknown_field l2)); [done|].
    intros f _. by apply unknown_field_same.
  - intros Hsub. destruct (shadows_hasOwnProperty data); [done|].
    destruct (List.find (unknown_field l1) _) as [f|] eqn:H1; [done|].
    intros _. rewrite find_none_all; [done|].
    intros f Hf. pose proof (find_none _ _ H1 f) as Hf1.
    specialize (Hf1 ltac:(by apply list_elem_of_In)).
    unfold unknown_field in *.
    apply negb_false_iff, orb_true_iff in Hf1 as [Hd|Hm].
    + by rewrite Hd.
    + apply mem_elem_of, Hsub, mem_elem_of in Hm. rewrite Hm.
      by rewrite orb_true_r.
Qed.

Lemma validateData_depends_on_allowed_set_witness :
  let data := Object [("width", VNum 300); ("slot", VStr "7");
                      ("colour", VStr "red")] [] in
  validateData data ["slot"; "id"; "slot"] = validateData data ["id"; "slot"] ∧
  validateData data ["colour"; "slot"; "id"] = Returned.
Proof.
  intros data.
  destruct (validateData_depends_on_allowed_set
              data ["slot"; "id"; "slot"] ["id"; "slot"]) as [Hsame _].
  destruct (validateData_depends_on_allowed_set
              data ["colour"; "slot"] ["colour"; "slot"; "id"]) as [_ Hmore].
  split.
  - apply Hsame. intros x. rewrite !elem_of_cons, !elem_of_nil. tauto.
  - apply Hmore; [|reflexivity].
    intros x. rewrite !elem_of_cons, !elem_of_nil. tauto.
Defined.

(** X7: the field named by an unknown-attribute error of [validateData] is
    always an own property of [data] whose name is not a member of
    [Object.prototype]: a property that [data] only inherits is never
    reported, and neither is an own property called, say, [toString] or
    [constructor], allowed or not. *)
Theorem validateData_never_reports_prototype_names
    (data : object) (allowedFields : list string)
    (message : string) (args : list value) :
  validateData data allowedFields = Threw (UserError message args) →
  ∃ field, args = [js_get data "type"; VStr field] ∧
    has_key field (own data) = true ∧ inherited field = false.
Proof.
  intros H. apply validateData_loop_throws in H
    as (field & _ & _ & Hargs & Hown & Hdef & _).
  exists field. split; [done|]. split; [done|].
  unfold js_in in Hdef. by apply orb_false_iff in Hdef as [_ ?].
Qed.

Lemma validateData_never_reports_prototype_names_witness :
  ∃ field,
    [VUndefined; VStr "colour"]
    = [js_get (Object [("toString", VStr "x"); ("colour", VStr "red")]
                 [("legacy", VNum 1)]) "type"; VStr field] ∧
    has_key field [("toString", VStr "x"); ("colour", VStr "red")] = true ∧
    inherited field = false.
Proof.
  apply (validateData_never_reports_prototype_names
           (Object [("toString", VStr "x"); ("colour", VStr "red")]
              [("legacy", VNum 1)])
           [] unknown_attribute_message).
  reflexivity.
Defined.

(** X8: [checkData] hands nothing to [rethrowAsync] exactly when no stored
    value shadows [hasOwnProperty] and every own property of [data] is
    reachable in [defaultAvailableFields] or listed in [allowedFields];
    otherwise it hands over exactly what [validateData] throws, the TypeError
    of a shadowed [hasOwnProperty] included. *)
Theorem checkData_reports_iff_unknown_field
    (data : object) (allowedFields : list string) :
  (checkData data allowedFields = None ↔
     shadows_hasOwnProperty data = false ∧
     ∀ field, has_key field (own data) = true →
       js_in field defaultAvailableFields = true ∨ field ∈ allowedFields) ∧
  (∀ e, checkData data allowedFields = Some e ↔
        validateData data allowedFields = Threw e) ∧
  (shadows_hasOwnProperty data = true →
   checkData data allowedFields = Some TypeError).
Proof.
  unfold checkData. rewrite validateData_closed_form.
  destruct (shadows_hasOwnProperty data).
  - split; [|split; [|done]].
    + split; [done | by intros [? _]].
    + intros e. split; by intros [= ->].
  - split; [|split; [|done]].
    + destruct (List.find (unknown_field allowedFields) _) as [f|] eqn:Hfind.
      * split; [done|]. intros [_ Hall]. exfalso.
        apply find_some in Hfind as [Hin Hunknown].
        apply list_elem_of_In, has_key_elem_of, Hall in Hin.
        unfold unknown_field in Hunknown.
        apply negb_true_iff, orb_false_iff in Hunknown as [Hd Hm].
        destruct Hin as [?|Hin]; [congruence|].
        apply mem_elem_of in Hin. congruence.
      * split; [|done]. intros _. split; [done|]. intros f Hf.
        apply has_key_elem_of, list_elem_of_In in Hf.
        pose proof (find_none _ _ Hfind f Hf) as Hk.
        unfold unknown_field in Hk.
        apply negb_false_iff, orb_true_iff in Hk as [?|Hm]; [by left|].
        right. by apply mem_elem_of.
    + intros e. destruct (List.find _ _); split; by intros [= ->].
Qed.


(** * Properties of register and run *)

Import Registry.

Lemma proto_is_inherited (id : string) :
  inherited id = false → String.eqb id "__proto__" = false.
Proof.
  intros Hinh. destruct (String.eqb_spec id "__proto__") as [->|_]; [|done].
  discriminate Hinh.
Qed.

Lemma read_free (id : string) (registrations : gmap string nat) :
  registrations !! id = None → inherited id = false →
  read registrations id = MUndefined.
Proof.
  intros Hnone Hinh. unfold read.
  by rewrite Hnone, (proto_is_inherited id Hinh), Hinh.
Qed.

Lemma read_inherited (id : string) (registrations : gmap string nat) :
  registrations !! id = None → inherited id = true →
  read registrations id
  = if String.eqb id "__proto__" then MPrototype else MInherited.
Proof. intros Hnone Hinh. unfold read. by rewrite Hnone, Hinh. Qed.

Lemma register_free (id : string) (draw : nat) (registrations : gmap string nat) :
  registrations !! id = None → inherited id = false →
  register id draw registrations = (<[id := draw]> registrations, None).
Proof.
  intros Hnone Hinh. unfold register. by rewrite (read_free id _ Hnone Hinh).
Qed.

Lemma register_taken (id : string) (draw : nat) (registrations : gmap string nat) :
  is_Some (registrations !! id) ∨ inherited id = true →
  register id draw registrations
  = (registrations, Some (DevError "Double registration %s" [VStr id])).
Proof.
  unfold register. intros [[d Hd]|Hinh].
  - unfold read. by rewrite Hd.
  - destruct (registrations !! id) as [d|] eqn:Hid.
    + unfold read. by rewrite Hid.
    + rewrite (read_inherited id _ Hid Hinh).
      by destruct (String.eqb id "__proto__").
Qed.

(** X9: once [register] has accepted a draw function for an id, [run] with
    that id applies exactly that draw function to the window and the data it
    is given, and [run] with any other id does what it did before. *)
Theorem register_then_run (id : string) (draw : nat)
    (registrations registrations' : gmap string nat) (w : nat) (data : object) :
  register id draw registrations = (registrations', None) →
  run id w data registrations' = Drew draw w data ∧
  ∀ id', id' ≠ id →
    run id' w data registrations' = run id' w data registrations.
Proof.
  intros Hreg.
  assert (registrations !! id = None ∧ inherited id = false) as [Hnone Hinh].
  { destruct (registrations !! id) as [d|] eqn:Hid.
    - rewrite register_taken in Hreg by (left; by eexists). done.
    - destruct (inherited id) eqn:Hinh; [|done].
      rewrite register_taken in Hreg by (by right). done. }
  rewrite (register_free id draw _ Hnone Hinh) in Hreg.
  injection Hreg as <-. unfold run, read. split.
  - by rewrite lookup_insert_eq.
  - intros id' Hne. by rewrite lookup_insert_ne.
Qed.

Lemma register_then_run_witness :
  run "twitter" 1 (Object [("tweetid", VStr "42")] []) {[ "twitter" := 5 ]}
  = Drew 5 1 (Object [("tweetid", VStr "42")] []) ∧
  ∀ id', id' ≠ "twitter" →
    run id' 1 (Object [("tweetid", VStr "42")] []) {[ "twitter" := 5 ]}
    = run id' 1 (Object [("tweetid", VStr "42")] []) ∅.
Proof.
  apply (register_then_run "twitter" 5 ∅ {[ "twitter" := 5 ]}).
  reflexivity.
Defined.

Lemma register_all_lookup (calls : list (string * nat))
    (registrations : gmap string nat) (id : string) :
  register_all calls registrations !! id
  = match registrations !! id with
    | Some draw => Some draw
    | None => if inherited id then None else first_draw id calls
    end.
Proof.
  revert registrations.
  induction calls as [|[id' draw] calls IH]; intros registrations; simpl.
  - destruct (registrations !! id); [done|]. by destruct (inherited id).
  - rewrite IH. destruct (registrations !! id') as [d'|] eqn:Hid'.
    + rewrite register_taken by (left; by eexists). simpl.
      destruct (String.eqb_spec id' id) as [->|Hne]; [by rewrite Hid'|done].
    + destruct (inherited id') eqn:Hinh.
      * rewrite register_taken by (by right). simpl.
        destruct (String.eqb_spec id' id) as [->|Hne]; [|done].
        by rewrite Hid', Hinh.
      * rewrite register_free by done. simpl.
        destruct (String.eqb_spec id' id) as [->|Hne].
        -- by rewrite lookup_insert_eq, Hid', Hinh.
        -- by rewrite lookup_insert_ne.
Qed.

(** X10: whatever integrations register in a frame, the first registration
    for an id wins: afterwards [run] applies the draw function of the first
    [register] call for the id and throws "Unknown 3p: " followed by the id
    when there was none.  An id that is a member name of [Object.prototype]
    can never be registered; for such an id [run] passes its assertion and
    applies the inherited method, except for [__proto__], which is not a
    function: there [run] fails with a TypeError. *)
Theorem first_registration_wins
    (calls : list (string * nat)) (id : string) (w : nat) (data : object) :
  register_all calls ∅ !! id
  = (if inherited id then None else first_draw id calls) ∧
  run id w data (register_all calls ∅)
  = if String.eqb id "__proto__" then Failed TypeError
    else if inherited id then AppliedInherited id w data
    else match first_draw id calls with
         | Some draw => Drew draw w data
         | None => Failed (UserError ("Unknown 3p: " +:+ id) [])
         end.
Proof.
  pose proof (register_all_lookup calls ∅ id) as Hl.
  rewrite lookup_empty in Hl. split; [exact Hl|].
  unfold run. destruct (inherited id) eqn:Hinh.
  - rewrite (read_inherited id _ Hl Hinh).
    by destruct (String.eqb id "__proto__").
  - rewrite (proto_is_inherited id Hinh).
    destruct (first_draw id calls) as [d|] eqn:Hfirst.
    + unfold read. by rewrite Hl.
    + by rewrite (read_free id _ Hl Hinh).
Qed.

(** * Properties of writeScript *)

Import Scripts.

Lemma runner_name_inj (i j : nat) : runner_name i = runner_name j → i = j.
Proof.
  unfold runner_name. intros H.
  apply (inj (String.app "__runScript")) in H. by apply (inj pretty) in H.
Qed.

Section WriteScripts.

Context (encodeURI : string → option string).

Lemma writeScript_counter (url : string) (opt_cb : option nat) (σ : page) :
  syncScriptLoads (fst (writeScript encodeURI url opt_cb σ))
  = syncScriptLoads σ + length (callbacks_of encodeURI [(url, opt_cb)]).
Proof.
  unfold writeScript. simpl.
  destruct (encodeURI url), opt_cb; simpl; lia.
Qed.

Lemma writeScript_keeps (url : string) (opt_cb : option nat) (σ : page)
    (i : nat) :
  i < syncScriptLoads σ →
  win (fst (writeScript encodeURI url opt_cb σ)) !! runner_name i
  = win σ !! runner_name i.
Proof.
  intros Hi. unfold writeScript.
  destruct (encodeURI url), opt_cb as [cb|]; simpl; try done.
  rewrite lookup_insert_ne; [done|]. intros H%runner_name_inj. lia.
Qed.

Lemma callbacks_of_cons (url : string) (opt_cb : option nat)
    (calls : list (string * option nat)) :
  callbacks_of encodeURI ((url, opt_cb) :: calls)
  = callbacks_of encodeURI [(url, opt_cb)] ++ callbacks_of encodeURI calls.
Proof. simpl. by destruct (encodeURI url), opt_cb. Qed.

Lemma writeScripts_counter (calls : list (string * option nat)) (σ : page) :
  syncScriptLoads (writeScripts encodeURI calls σ)
  = syncScriptLoads σ + length (callbacks_of encodeURI calls).
Proof.
  revert σ. induction calls as [|[url opt_cb] calls IH]; intros σ.
  - simpl. lia.
  - rewrite callbacks_of_cons, length_app. simpl writeScripts.
    rewrite IH, writeScript_counter. lia.
Qed.

Lemma writeScripts_keeps (calls : list (string * option nat)) (σ : page)
    (i : nat) :
  i < syncScriptLoads σ →
  win (writeScripts encodeURI calls σ) !! runner_name i
  = win σ !! runner_name i.
Proof.
  revert σ. induction calls as [|[url opt_cb] calls IH]; intros σ Hi; simpl.
  - done.
  - rewrite IH by (rewrite writeScript_counter; lia).
    by apply writeScript_keeps.
Qed.

End WriteScripts.

(** X11: [writeScript] on a url that [encodeURI] rejects throws a [URIError]
    before anything is written, stored or counted.  Over any sequence of
    [writeScript] calls on a page, every callback of the other calls is
    stored on the window under a name of its own: the [k]-th of them,
    counting from 0, ends up under ['__runScript'] followed by the counter
    value at the start plus [k], later calls never overwrite it, and the
    counter has advanced by the number of those callbacks. *)
Theorem writeScript_callbacks_kept_apart
    (encodeURI : string → option string)
    (calls : list (string * option nat)) (σ : page) (k cb : nat) :
  callbacks_of encodeURI calls !! k = Some cb →
  win (writeScripts encodeURI calls σ) !! runner_name (syncScriptLoads σ + k)
  = Some cb ∧
  syncScriptLoads (writeScripts encodeURI calls σ)
  = syncScriptLoads σ + length (callbacks_of encodeURI calls) ∧
  (∀ url opt_cb, encodeURI url = None →
     writeScript encodeURI url opt_cb σ = (σ, Some URIError)).
Proof.
  intros Hk. split; [|split; [apply writeScripts_counter|]].
  - revert σ k Hk.
    induction calls as [|[url opt_cb] calls IH]; intros σ k Hk.
    + simpl in Hk. by rewrite lookup_nil in Hk.
    + simpl in Hk. simpl writeScripts. unfold writeScript.
      destruct (encodeURI url) as [encoded|]; simpl.
      * destruct opt_cb as [cb0|]; simpl.
        -- destruct k as [|k]; simpl in Hk.
           ++ injection Hk as ->. rewrite Nat.add_0_r.
              rewrite writeScripts_keeps by (simpl; lia). simpl.
              by rewrite lookup_insert_eq.
           ++ rewrite <- (IH (executeAfterWriteScript cb0
                   (Page (syncScriptLoads σ) (win σ)
                      (written σ ++ [script_markup encoded]))) k Hk).
              simpl. f_equal. f_equal. lia.
        -- by rewrite <- (IH (Page (syncScriptLoads σ) (win σ)
                   (written σ ++ [script_markup encoded])) k Hk).
      * by rewrite <- (IH σ k Hk).
  - intros url opt_cb Hnone. unfold writeScript. by rewrite Hnone.
Qed.

Lemma writeScript_callbacks_kept_apart_witness :
  let encode := fun url => if String.eqb url "bad" then None else Some url in
  win (writeScripts encode
         [ ("https://a.example/a.js", Some 10);
           ("bad", Some 12);
           ("https://b.example/b.js", None);
           ("https://c.example/c.js", Some 11) ]
         (Page 3 ∅ [])) !! "__runScript4" = Some 11 ∧
  syncScriptLoads
    (writeScripts encode
       [ ("https://a.example/a.js", Some 10);
         ("bad", Some 12);
         ("https://b.example/b.js", None);
         ("https://c.example/c.js", Some 11) ]
       (Page 3 ∅ [])) = 5.
Proof.
  intros encode.
  destruct (writeScript_callbacks_kept_apart encode
              [ ("https://a.example/a.js", Some 10);
                ("bad", Some 12);
                ("https://b.example/b.js", None);
                ("https://c.example/c.js", Some 11) ]
              (Page 3 ∅ []) 1 11 eq_refl) as (Hstored & Hcount & _).
  split; [exact Hstored | exact Hcount].
Defined.

(** * Further properties of computeInMasterFrame *)

Import MasterFrame.

(** ** Every reachable state is traceable *)

Lemma called_subset (c : callback) (cbs : list callback) :
  c ∈ called cbs → c ∈ cbs.
Proof.
  intros Hc. destruct (called_prefix cbs) as [rest Hrest].
  rewrite Hrest. apply elem_of_app. by left.
Qed.

Lemma work_count_member (σ : world) (w : nat) (k : closure) :
  (w, k) ∈ works σ → 0 < work_count (cl_taskId k) σ.
Proof.
  intros Hin. unfold work_count.
  assert ((w, k) ∈ List.filter
            (fun wk => String.eqb (cl_taskId (snd wk)) (cl_taskId k))
            (works σ)) as Hf.
  { apply list_elem_of_In, filter_In. split; [by apply list_elem_of_In|].
    apply String.eqb_refl. }
  destruct (List.filter _ _); [by apply elem_of_nil in Hf | simpl; lia].
Qed.

Lemma work_count_none (σ : world) (t : string) :
  (∀ w k, (w, k) ∈ works σ → cl_taskId k ≠ t) → work_count t σ = 0.
Proof.
  intros Hnone. unfold work_count.
  destruct (List.filter _ _) as [|[w k] rest] eqn:Hf; [done|].
  assert ((w, k) ∈ List.filter
            (fun wk => String.eqb (cl_taskId (snd wk)) t) (works σ)) as Hin
    by (rewrite Hf; by left).
  apply list_elem_of_In, filter_In in Hin as [Hin Ht].
  apply String.eqb_eq in Ht. apply list_elem_of_In in Hin.
  by destruct (Hnone w k Hin).
Qed.

Lemma work_count_grows (t : string) (σ : world)
    (tasks : option (gmap string entry)) (h : list (list callback))
    (extra : list (nat * closure)) (evs : list event) :
  work_count t σ ≤ work_count t (World tasks h (works σ ++ extra) evs).
Proof.
  unfold work_count. simpl. rewrite List.filter_app, length_app. lia.
Qed.

Lemma traceable_init : traceable init.
Proof.
  split; unfold init, tasks_of; simpl; try done; intros;
    match goal with H : _ ∈ [] |- _ => by apply elem_of_nil in H end.
Qed.

Section CallKeepsTraceable.

Context (isMaster : bool) (taskId : string) (work : nat) (cb : callback).
Context (σ : world) (Hσ : consistent σ) (Tσ : traceable σ).

Lemma traceable_call_inherited :
  tasks_of σ !! taskId = None → inherited taskId = true →
  traceable (fst (computeInMasterFrame isMaster taskId work cb σ)).
Proof.
  intros Hslot Hinh. rewrite (call_inherited _ _ _ _ _ Hslot Hinh). simpl.
  destruct Tσ as [HB HO HA HS HD HW HI].
  split; rewrite ?tasks_of_World; simpl.
  - exact HB.
  - exact HO.
  - intros w k l q c Hin Hl Hq Hc. read_log. apply elem_of_app. left.
    by apply (HA w k l q).
  - intros t r Ht. read_log. by apply HS.
  - intros t c r. read_log. intros Hd. destruct (HD t c r Hd) as [Hc Hr].
    split; [|done]. apply elem_of_app. by left.
  - intros t. read_log. apply HW.
  - exact HI.
Qed.

Lemma traceable_call_fresh :
  tasks_of σ !! taskId = None → inherited taskId = false →
  traceable (fst (computeInMasterFrame isMaster taskId work cb σ)).
Proof.
  intros Hslot Hinh. rewrite (call_fresh _ _ _ _ _ Hslot Hinh). simpl.
  destruct Tσ as [HB HO HA HS HD HW HI].
  assert (Hold : ∀ t l, tasks_of σ !! t = Some (EArray l) →
                        l < length (heap σ)).
  { intros t l Ht. apply (queue_regs σ Hσ) in Ht.
    by apply lookup_lt_Some in Ht. }
  assert (Hnew : ∀ w k, (w, k) ∈ (if isMaster
                   then [(work, Closure taskId (EArray (length (heap σ))))]
                   else []) →
                 k = Closure taskId (EArray (length (heap σ)))).
  { intros w k Hin. destruct isMaster; [|by apply elem_of_nil in Hin].
    by apply list_elem_of_singleton in Hin as [= -> ->]. }
  split; rewrite ?tasks_of_World; simpl.
  - intros w k l [Hin|Hin]%elem_of_app Hl; rewrite length_app; simpl.
    + specialize (HB w k l Hin Hl). lia.
    + apply Hnew in Hin as ->. simpl in Hl. injection Hl as <-. lia.
  - intros w k l t [Hin|Hin]%elem_of_app Hl.
    + specialize (HB w k l Hin Hl).
      destruct (decide (taskId = t)) as [<-|Hne].
      * rewrite lookup_insert_eq. intros [= <-]. lia.
      * rewrite lookup_insert_ne by done. by apply (HO w).
    + apply Hnew in Hin as ->. simpl in *. injection Hl as <-.
      destruct (decide (taskId = t)) as [<-|Hne]; [done|].
      rewrite lookup_insert_ne by done. intros Ht%Hold. lia.
  - intros w k l q c [Hin|Hin]%elem_of_app Hl Hq Hc; read_log.
    + specialize (HB w k l Hin Hl).
      rewrite lookup_app_l in Hq by done.
      apply elem_of_app. left. by apply (HA w k l q).
    + apply Hnew in Hin as ->. simpl in *. injection Hl as <-.
      rewrite lookup_app_r, Nat.sub_diag in Hq by lia.
      injection Hq as <-. apply list_elem_of_singleton in Hc as ->.
      rewrite String.eqb_refl. apply elem_of_app. right. by left.
  - intros t r. read_log. destruct (decide (taskId = t)) as [<-|Hne].
    + by rewrite lookup_insert_eq.
    + rewrite lookup_insert_ne by done. apply HS.
  - intros t c r. read_log. intros Hd. destruct (HD t c r Hd) as [Hc Hr].
    split; [|done]. apply elem_of_app. by left.
  - intros t. read_log. intros Hc. specialize (HW t Hc).
    pose proof (work_count_grows t σ
      (Some (<[taskId:=EArray (length (heap σ))]> (tasks_of σ)))
      (heap σ ++ [[cb]])
      (if isMaster
       then [(work, Closure taskId (EArray (length (heap σ))))] else [])
      (log σ ++ [EvCall isMaster taskId work cb])). lia.
  - intros t Ht. destruct (decide (taskId = t)) as [<-|Hne]; [congruence|].
    rewrite lookup_insert_ne by done. by apply HI.
Qed.

Lemma traceable_call_waiting (l : nat) :
  tasks_of σ !! taskId = Some (EArray l) →
  traceable (fst (computeInMasterFrame isMaster taskId work cb σ)).
Proof.
  intros Hslot. rewrite (call_waiting _ _ _ _ _ _ Hslot). simpl.
  destruct Tσ as [HB HO HA HS HD HW HI].
  pose proof (queue_regs σ Hσ _ _ Hslot) as Hqueue.
  assert (Hnew : ∀ w k, (w, k) ∈ (if isMaster
                   then [(work, Closure taskId (EArray l))] else []) →
                 k = Closure taskId (EArray l)).
  { intros w k Hin. destruct isMaster; [|by apply elem_of_nil in Hin].
    by apply list_elem_of_singleton in Hin as [= -> ->]. }
  assert (Hown : ∀ w k, (w, k) ∈ works σ ++ (if isMaster
                   then [(work, Closure taskId (EArray l))] else []) →
                 cl_cbs k = EArray l → cl_taskId k = taskId).
  { intros w k [Hin|Hin]%elem_of_app Hl.
    - symmetry. by apply (HO w k l).
    - by apply Hnew in Hin as ->. }
  split; rewrite ?tasks_of_World; simpl.
  - intros w k l' [Hin|Hin]%elem_of_app Hl; rewrite length_alter.
    + by apply (HB w k).
    + apply Hnew in Hin as ->. simpl in Hl. injection Hl as <-.
      by apply lookup_lt_Some in Hqueue.
  - intros w k l' t [Hin|Hin]%elem_of_app Hl Ht.
    + by apply (HO w k l').
    + apply Hnew in Hin as ->. simpl in *. injection Hl as <-.
      by apply (queue_inj σ Hσ t taskId l).
  - intros w k l' q c Hin Hl Hq Hc. read_log.
    destruct (decide (l = l')) as [<-|Hne].
    + rewrite (Hown w k Hin Hl), String.eqb_refl.
      rewrite list_lookup_alter_eq, Hqueue in Hq. by injection Hq as <-.
    + rewrite list_lookup_alter_ne in Hq by done.
      apply elem_of_app in Hin as [Hin|Hin].
      * apply elem_of_app. left. by apply (HA w k l' q).
      * apply Hnew in Hin as ->. simpl in Hl. congruence.
  - intros t r Ht. read_log. by apply HS.
  - intros t c r. read_log. intros Hd. destruct (HD t c r Hd) as [Hc Hr].
    split; [|done]. apply elem_of_app. by left.
  - intros t. read_log. intros Hc. specialize (HW t Hc).
    pose proof (work_count_grows t σ (Some (tasks_of σ))
      (alter (fun q => q ++ [cb]) l (heap σ))
      (if isMaster then [(work, Closure taskId (EArray l))] else [])
      (log σ ++ [EvCall isMaster taskId work cb])). lia.
  - exact HI.
Qed.

Lemma traceable_call_resolved (r : value) :
  tasks_of σ !! taskId = Some (EStub r) →
  traceable (fst (computeInMasterFrame isMaster taskId work cb σ)).
Proof.
  intros Hslot. rewrite (call_resolved _ _ _ _ _ _ Hslot). simpl.
  destruct Tσ as [HB HO HA HS HD HW HI].
  assert (Hnew : ∀ w k, (w, k) ∈ (if isMaster && negb (cb_throws cb)
                   then [(work, Closure taskId (EStub r))] else []) →
                 k = Closure taskId (EStub r)).
  { intros w k Hin.
    destruct (isMaster && negb (cb_throws cb));
      [|by apply elem_of_nil in Hin].
    by apply list_elem_of_singleton in Hin as [= -> ->]. }
  split; rewrite ?tasks_of_World; simpl.
  - intros w k l [Hin|Hin]%elem_of_app Hl; [by apply (HB w k)|].
    by apply Hnew in Hin as ->.
  - intros w k l t [Hin|Hin]%elem_of_app Hl; [by apply (HO w k)|].
    by apply Hnew in Hin as ->.
  - intros w k l q c [Hin|Hin]%elem_of_app Hl Hq Hc;
      [|by apply Hnew in Hin as ->].
    read_log. apply elem_of_app. left. by apply (HA w k l q).
  - intros t r' Ht. read_log. by apply HS.
  - intros t c r'. read_log.
    intros [Hd|Hd]%elem_of_app.
    + destruct (HD t c r' Hd) as [Hc Hr]. split; [|done].
      apply elem_of_app. by left.
    + destruct (String.eqb_spec taskId t) as [<-|Hne];
        [|by apply elem_of_nil in Hd].
      apply list_elem_of_singleton in Hd as [= -> ->]. split.
      * apply elem_of_app. right. by left.
      * by apply HS.
  - intros t. read_log. intros Hc. specialize (HW t Hc).
    pose proof (work_count_grows t σ (Some (tasks_of σ)) (heap σ)
      (if isMaster && negb (cb_throws cb)
       then [(work, Closure taskId (EStub r))] else [])
      (log σ ++ [EvCall isMaster taskId work cb; EvCallback taskId cb r])).
    lia.
  - exact HI.
Qed.

Lemma traceable_call :
  traceable (fst (computeInMasterFrame isMaster taskId work cb σ)).
Proof.
  destruct (tasks_of σ !! taskId) as [[l|r]|] eqn:Hslot.
  - by eapply traceable_call_waiting.
  - by eapply traceable_call_resolved.
  - destruct (inherited taskId) eqn:Hinh.
    + by apply traceable_call_inherited.
    + by apply traceable_call_fresh.
Qed.

End CallKeepsTraceable.

Lemma complete_tasks_stub (k : closure) (r : value) (σ : world)
    (t : string) (r' : value) :
  tasks_of (fst (complete k r σ)) !! t = Some (EStub r') →
  (t = cl_taskId k ∧ r' = r) ∨ tasks_of σ !! t = Some (EStub r').
Proof.
  rewrite complete_tasks. destruct (fan_outcome _); [|by right].
  destruct (decide (cl_taskId k = t)) as [<-|Hne].
  - rewrite lookup_insert_eq. intros [= <-]. by left.
  - rewrite lookup_insert_ne by done. by right.
Qed.

Lemma traceable_complete (w : nat) (k : closure) (r : value) (σ : world) :
  consistent σ → traceable σ → (w, k) ∈ works σ →
  traceable (fst (complete k r σ)).
Proof.
  intros Hσ [HB HO HA HS HD HW HI] Hin.
  split.
  - intros w1 k1 l. rewrite complete_works, complete_heap. apply HB.
  - intros w1 k1 l t. rewrite complete_works.
    intros Hin1 Hl Ht%complete_tasks_array. by apply (HO w1 k1 l).
  - intros w1 k1 l q c. rewrite complete_works, complete_heap, complete_log.
    read_log. apply HA.
  - intros t r'. rewrite complete_log. read_log.
    intros [[-> ->]|Ht]%complete_tasks_stub.
    + rewrite String.eqb_refl. apply elem_of_app. right. by left.
    + apply elem_of_app. left. by apply HS.
  - intros t c r'. rewrite complete_log. read_log.
    intros [Hd|Hd]%elem_of_app.
    + destruct (HD t c r' Hd) as [Hc Hr]. split; [done|].
      apply elem_of_app. by left.
    + destruct (String.eqb_spec (cl_taskId k) t) as [<-|Hne];
        [|by apply elem_of_nil in Hd].
      apply list_elem_of_fmap in Hd as (c' & [= -> ->] & Hc'). split.
      * apply called_subset in Hc'. unfold queued in Hc'.
        destruct (cl_cbs k) as [l|r0] eqn:Hcbs;
          [|by apply elem_of_nil in Hc'].
        destruct (heap σ !! l) as [q|] eqn:Hq; simpl in Hc';
          [|by apply elem_of_nil in Hc'].
        by apply (HA w k l q).
      * apply elem_of_app. right. by left.
  - intros t. rewrite complete_log. read_log.
    destruct (String.eqb_spec (cl_taskId k) t) as [<-|Hne].
    + intros _. rewrite complete_work_count. by apply (work_count_member σ w).
    + rewrite app_nil_r, complete_work_count. apply HW.
  - intros t Ht. rewrite complete_tasks_other; [by apply HI|].
    intros ->.
    destruct (closure_entry σ Hσ w k Hin) as [[r0 Hr0]|(l & _ & Hl)];
      rewrite (HI _ Ht) in *; done.
Qed.

Lemma reachable_both (acts : list action) (σ σ' : world) :
  consistent σ → traceable σ → run acts σ = Some σ' →
  consistent σ' ∧ traceable σ'.
Proof.
  revert σ. induction acts as [|a acts IH]; intros σ Hσ Tσ; simpl.
  - by intros [= <-].
  - destruct (step a σ) as [σ1|] eqn:Hstep; [|done].
    apply IH; [by eapply consistent_step|].
    destruct a as [m t w cb | n r]; simpl in Hstep.
    + injection Hstep as <-. by apply traceable_call.
    + destruct (works σ !! n) as [[w k]|] eqn:Hn; [|done].
      injection Hstep as <-. apply (traceable_complete w); [done|done|].
      by eapply list_elem_of_lookup_2.
Qed.

Lemma reachable_traceable (acts : list action) (σ : world) :
  run acts init = Some σ → traceable σ.
Proof.
  intros Hrun.
  by destruct (reachable_both acts init σ consistent_init traceable_init Hrun).
Qed.


(** ** Nothing is delivered before the work is done *)

(** X12: in every state a master window can reach, as long as no completion
    function of a task has been called, no callback passed for the task has
    been invoked and the task is not resolved. *)
Theorem no_delivery_before_completion
    (acts : list action) (σ : world) (t : string) :
  run acts init = Some σ →
  completions t (log σ) = [] →
  delivered t (log σ) = [] ∧ ∀ r, tasks_of σ !! t ≠ Some (EStub r).
Proof.
  intros Hrun Hc.
  destruct (pending_silent σ (reachable_consistent acts σ Hrun) t Hc). done.
Qed.

Lemma no_delivery_before_completion_witness :
  ∃ σ,
    run [ ACall false "geo" 7 (Callback 0 false);
          ACall true "geo" 7 (Callback 1 false);
          ACall true "ads" 8 (Callback 2 false);
          AComplete 1 (VStr "ok") ] init = Some σ ∧
    delivered "geo" (log σ) = [].
Proof.
  eexists. split; [reflexivity|].
  refine (proj1 (no_delivery_before_completion
                   [ ACall false "geo" 7 (Callback 0 false);
                     ACall true "geo" 7 (Callback 1 false);
                     ACall true "ads" 8 (Callback 2 false);
                     AComplete 1 (VStr "ok") ] _ "geo" eq_refl _)).
  reflexivity.
Defined.

Lemma work_count_run_le (acts : list action) (σ0 σ : world) (t : string) :
  run acts σ0 = Some σ →
  work_count t σ ≤ work_count t σ0 + master_calls t acts.
Proof.
  revert σ0. induction acts as [|a acts IH]; intros σ0 Hrun; simpl in Hrun.
  - simplify_eq. lia.
  - destruct (step a σ0) as [σ1|] eqn:Hstep; [|done].
    specialize (IH σ1 Hrun). rewrite master_calls_cons.
    destruct a as [m t' w cb | n r]; simpl in Hstep.
    + injection Hstep as <-.
      pose proof (call_work_count_le t m t' w cb σ0). lia.
    + destruct (works σ0 !! n) as [[w k]|]; [|done].
      injection Hstep as <-. rewrite complete_work_count in IH. simpl. lia.
Qed.

(** X13: when the master context never calls [computeInMasterFrame] for a
    task, then however often other contexts call, the work function of the
    task is never invoked, no completion function of the task exists to be
    called, no callback passed for the task is ever invoked and the task is
    never resolved. *)
Theorem no_master_call_no_delivery
    (acts : list action) (σ : world) (t : string) :
  run acts init = Some σ →
  master_calls t acts = 0 →
  work_count t σ = 0 ∧
  completions t (log σ) = [] ∧
  delivered t (log σ) = [] ∧
  ∀ r, tasks_of σ !! t ≠ Some (EStub r).
Proof.
  intros Hrun Hm.
  assert (work_count t σ = 0) as Hw.
  { pose proof (work_count_run_le acts init σ t Hrun) as Hle.
    rewrite Hm in Hle. unfold work_count in *. simpl in Hle. lia. }
  assert (completions t (log σ) = []) as Hc.
  { destruct (completions t (log σ)) as [|r rest] eqn:Hc; [done|].
    pose proof (completion_needs_work σ (reachable_traceable acts σ Hrun) t)
      as Hneed.
    rewrite Hc in Hneed. specialize (Hneed ltac:(done)). lia. }
  split; [done|]. split; [done|].
  destruct (pending_silent σ (reachable_consistent acts σ Hrun) t Hc). done.
Qed.

Lemma no_master_call_no_delivery_witness :
  ∃ σ,
    run [ ACall false "geo" 7 (Callback 0 false);
          ACall false "geo" 7 (Callback 1 false);
          ACall true "ads" 8 (Callback 2 false);
          AComplete 0 (VStr "ok") ] init = Some σ ∧
    work_count "geo" σ = 0 ∧
    completions "geo" (log σ) = [] ∧
    delivered "geo" (log σ) = [] ∧
    ∀ r, tasks_of σ !! "geo" ≠ Some (EStub r).
Proof.
  eexists. split; [reflexivity|].
  refine (no_master_call_no_delivery
            [ ACall false "geo" 7 (Callback 0 false);
              ACall false "geo" 7 (Callback 1 false);
              ACall true "ads" 8 (Callback 2 false);
              AComplete 0 (VStr "ok") ] _ "geo" eq_refl _).
  reflexivity.
Defined.

(** ** What is delivered, and to whom *)

(** X14: whatever calls and completions happen on a master window, every
    invocation of a callback for a task passes a result that was given to a
    completion function of that same task, to a callback that was passed to
    [computeInMasterFrame] for that same task; and a result stored for a task
    is one that was given to a completion function of that task.  Results and
    callbacks never cross from one task to another. *)
Theorem deliveries_stay_within_task
    (acts : list action) (σ : world) (t : string) :
  run acts init = Some σ →
  (∀ c r, (c, r) ∈ delivered t (log σ) →
          c ∈ passed t acts ∧ r ∈ completions t (log σ)) ∧
  (∀ r, tasks_of σ !! t = Some (EStub r) → r ∈ completions t (log σ)).
Proof.
  intros Hrun. pose proof (reachable_traceable acts σ Hrun) as Tσ. split.
  - intros c r Hd. rewrite <- (registered_passed acts σ t Hrun).
    by apply (delivered_sound σ Tσ).
  - apply (stored_result σ Tσ).
Qed.

Lemma deliveries_stay_within_task_witness :
  ∃ σ,
    run [ ACall true "geo" 7 (Callback 0 false);
          ACall true "ads" 8 (Callback 1 false);
          AComplete 1 (VStr "banner");
          AComplete 0 (VStr "US");
          ACall false "geo" 7 (Callback 2 false) ] init = Some σ ∧
    ∀ r, tasks_of σ !! "geo" = Some (EStub r) →
         r ∈ completions "geo" (log σ).
Proof.
  eexists. split; [reflexivity|].
  refine (proj2 (deliveries_stay_within_task
                   [ ACall true "geo" 7 (Callback 0 false);
                     ACall true "ads" 8 (Callback 1 false);
                     AComplete 1 (VStr "banner");
                     AComplete 0 (VStr "US");
                     ACall false "geo" 7 (Callback 2 false) ]
                   _ "geo" eq_refl)).
Defined.

(** ** Resolution is for good *)

Lemma call_tasks_kept (m : bool) (t' : string) (w : nat) (cb : callback)
    (σ : world) (t : string) (e : entry) :
  tasks_of σ !! t = Some e →
  tasks_of (fst (computeInMasterFrame m t' w cb σ)) !! t = Some e.
Proof.
  intros He. destruct (tasks_of σ !! t') as [[l|r]|] eqn:Hslot.
  - by rewrite (call_waiting _ _ _ _ _ _ Hslot).
  - by rewrite (call_resolved _ _ _ _ _ _ Hslot).
  - destruct (inherited t') eqn:Hinh.
    + by rewrite (call_inherited _ _ _ _ _ Hslot Hinh).
    + rewrite (call_fresh _ _ _ _ _ Hslot Hinh). simpl.
      rewrite tasks_of_World.
      rewrite lookup_insert_ne; [done|]. intros <-. congruence.
Qed.

Lemma call_completions (m : bool) (t' : string) (w : nat) (cb : callback)
    (σ : world) (t : string) :
  completions t (log (fst (computeInMasterFrame m t' w cb σ)))
  = completions t (log σ).
Proof.
  destruct (tasks_of σ !! t') as [[l|r]|] eqn:Hslot.
  - rewrite (call_waiting _ _ _ _ _ _ Hslot). simpl. by read_log.
  - rewrite (call_resolved _ _ _ _ _ _ Hslot). simpl. by read_log.
  - destruct (inherited t') eqn:Hinh.
    + rewrite (call_inherited _ _ _ _ _ Hslot Hinh). simpl. by read_log.
    + rewrite (call_fresh _ _ _ _ _ Hslot Hinh). simpl. by read_log.
Qed.

Lemma resolved_run (acts : list action) (σ σ' : world) (t : string)
    (r : value) :
  run acts σ = Some σ' →
  tasks_of σ !! t = Some (EStub r) →
  ∃ more r',
    completions t (log σ') = completions t (log σ) ++ more ∧
    tasks_of σ' !! t = Some (EStub r') ∧
    (more = [] → r' = r).
Proof.
  revert σ r. induction acts as [|a acts IH]; intros σ r Hrun Hr;
    simpl in Hrun.
  - simplify_eq. exists [], r. by rewrite app_nil_r.
  - destruct (step a σ) as [σ1|] eqn:Hstep; [|done].
    assert (∃ more1 r1,
              completions t (log σ1) = completions t (log σ) ++ more1 ∧
              tasks_of σ1 !! t = Some (EStub r1) ∧
              (more1 = [] → r1 = r)) as (more1 & r1 & Hc1 & Hr1 & Hsame1).
    { destruct a as [m t' w cb | n r0]; simpl in Hstep.
      - injection Hstep as <-. exists [], r.
        rewrite call_completions, app_nil_r.
        split; [done|]. split; [by apply call_tasks_kept | done].
      - destruct (works σ !! n) as [[w k]|]; [|done].
        injection Hstep as <-. rewrite complete_log, complete_tasks.
        read_log.
        destruct (String.eqb_spec (cl_taskId k) t) as [<-|Hne].
        + destruct (fan_outcome _).
          * exists [r0], r0. by rewrite lookup_insert_eq.
          * exists [r0], r. done.
        + exists [], r. rewrite app_nil_r. split; [done|].
          split; [|done]. destruct (fan_outcome _); [|done].
          by rewrite lookup_insert_ne. }
    destruct (IH σ1 r1 Hrun Hr1) as (more & r' & Hc & Hr' & Hsame).
    exists (more1 ++ more), r'. rewrite Hc, Hc1, app_assoc.
    split; [done|]. split; [done|].
    intros [-> ->]%app_eq_nil. rewrite Hsame by done. by apply Hsame1.
Qed.

(** X15: a resolved task stays resolved: whatever calls and completions
    follow, its entry is never removed and never turned back into a waiting
    array, and the stored result stays the same unless a completion function
    of the task is called again. *)
Theorem resolved_stays_resolved
    (acts : list action) (σ σ' : world) (t : string) (r : value) :
  run acts σ = Some σ' →
  tasks_of σ !! t = Some (EStub r) →
  ∃ r', tasks_of σ' !! t = Some (EStub r') ∧
        (completions t (log σ') = completions t (log σ) → r' = r).
Proof.
  intros Hrun Hr.
  destruct (resolved_run acts σ σ' t r Hrun Hr) as (more & r' & Hc & Hr' & Hs).
  exists r'. split; [done|]. intros Heq. apply Hs.
  rewrite Hc in Heq. rewrite <- (app_nil_r (completions t (log σ))) in Heq at 2.
  by apply app_inv_head in Heq.
Qed.

Lemma resolved_stays_resolved_witness :
  let σ := World (Some {[ "geo" := EStub (VStr "US") ]}) []
                 [(7, Closure "geo" (EArray 0))] [] in
  ∃ σ' r',
    run [ ACall false "geo" 7 (Callback 0 false);
          ACall true "ads" 8 (Callback 1 false);
          AComplete 1 (VStr "banner") ] σ = Some σ' ∧
    tasks_of σ' !! "geo" = Some (EStub r') ∧
    (completions "geo" (log σ') = completions "geo" (log σ) →
     r' = VStr "US").
Proof.
  intros σ. eexists.
  destruct (resolved_stays_resolved
              [ ACall false "geo" 7 (Callback 0 false);
                ACall true "ads" 8 (Callback 1 false);
                AComplete 1 (VStr "banner") ]
              σ _ "geo" (VStr "US") eq_refl eq_refl) as (r' & Hr' & Hsame).
  exists r'. split; [reflexivity|]. split; [exact Hr' | exact Hsame].
Defined.

(** ** Task names inherited from Object.prototype *)

(** X16: a task whose name is a member name of [Object.prototype] (such as
    [constructor] or [toString]) cannot be used: in every reachable state a
    call of [computeInMasterFrame] for it fails with a TypeError, nothing is
    stored under the name, its work function is never invoked and no callback
    passed for it is ever invoked. *)
Theorem inherited_task_name_unusable
    (acts : list action) (σ : world) (t : string)
    (isMaster : bool) (work : nat) (cb : callback) :
  run acts init = Some σ →
  inherited t = true →
  snd (computeInMasterFrame isMaster t work cb σ) = Threw TypeError ∧
  tasks_of σ !! t = None ∧
  work_count t σ = 0 ∧
  delivered t (log σ) = [].
Proof.
  intros Hrun Hinh.
  pose proof (reachable_consistent acts σ Hrun) as Hσ.
  pose proof (reachable_traceable acts σ Hrun) as Tσ.
  pose proof (inherited_absent σ Tσ t Hinh) as Hnone.
  assert (work_count t σ = 0) as Hw.
  { apply work_count_none. intros w k Hin <-.
    destruct (closure_entry σ Hσ w k Hin) as [[r Hr]|(l & _ & Hl)];
      congruence. }
  split; [by rewrite (call_inherited _ _ _ _ _ Hnone Hinh)|].
  split; [done|]. split; [done|].
  assert (completions t (log σ) = []) as Hc.
  { destruct (completions t (log σ)) as [|r rest] eqn:Hc; [done|].
    pose proof (completion_needs_work σ Tσ t) as Hneed.
    rewrite Hc in Hneed. specialize (Hneed ltac:(done)). lia. }
  by destruct (pending_silent σ Hσ t Hc).
Qed.

Lemma inherited_task_name_unusable_witness :
  ∃ σ,
    run [ ACall true "toString" 7 (Callback 0 false);
          ACall false "toString" 7 (Callback 1 false) ] init = Some σ ∧
    snd (computeInMasterFrame true "toString" 7 (Callback 2 false) σ)
    = Threw TypeError ∧
    tasks_of σ !! "toString" = None ∧
    work_count "toString" σ = 0 ∧
    delivered "toString" (log σ) = [].
Proof.
  eexists. split; [reflexivity|].
  refine (inherited_task_name_unusable
            [ ACall true "toString" 7 (Callback 0 false);
              ACall false "toString" 7 (Callback 1 false) ]
            _ "toString" true 7 (Callback 2 false) eq_refl _).
  reflexivity.
Defined.

(** ** Tasks do not disturb one another *)

Lemma call_other_task (m : bool) (t' : string) (w : nat) (cb : callback)
    (σ : world) (t : string) :
  consistent σ → t' ≠ t →
  tasks_of (fst (computeInMasterFrame m t' w cb σ)) !! t = tasks_of σ !! t ∧
  (∀ l, tasks_of σ !! t = Some (EArray l) →
        heap (fst (computeInMasterFrame m t' w cb σ)) !! l = heap σ !! l) ∧
  registered t (log (fst (computeInMasterFrame m t' w cb σ)))
  = registered t (log σ) ∧
  delivered t (log (fst (computeInMasterFrame m t' w cb σ)))
  = delivered t (log σ) ∧
  work_count t (fst (computeInMasterFrame m t' w cb σ)) = work_count t σ.
Proof.
  intros Hσ Hne.
  assert (Heqb : String.eqb t' t = false) by (by apply String.eqb_neq).
  assert (Hwork : ∀ tasks h evs e,
            work_count t (World tasks h
              (works σ ++ (if m then [(w, Closure t' e)] else [])) evs)
            = work_count t σ).
  { intros tasks h evs e. unfold work_count. simpl.
    rewrite List.filter_app, length_app.
    destruct m; simpl; rewrite ?Heqb; simpl; lia. }
  destruct (tasks_of σ !! t') as [[l'|r]|] eqn:Hslot.
  - rewrite (call_waiting _ _ _ _ _ _ Hslot). simpl. rewrite tasks_of_World.
    read_log. rewrite Heqb, !app_nil_r.
    repeat split; try done; try apply Hwork.
    intros l Hl. rewrite list_lookup_alter_ne; [done|].
    intros <-. apply Hne. by apply (queue_inj σ Hσ t' t l').
  - rewrite (call_resolved _ _ _ _ _ _ Hslot). simpl. rewrite tasks_of_World.
    read_log. rewrite Heqb, !app_nil_r.
    repeat split; try done.
    unfold work_count. simpl. rewrite List.filter_app, length_app.
    destruct (m && negb (cb_throws cb)); simpl; rewrite ?Heqb; simpl; lia.
  - destruct (inherited t') eqn:Hinh.
    + rewrite (call_inherited _ _ _ _ _ Hslot Hinh). simpl.
      rewrite tasks_of_World. read_log. rewrite Heqb, !app_nil_r.
      repeat split; done.
    + rewrite (call_fresh _ _ _ _ _ Hslot Hinh). simpl.
      rewrite tasks_of_World. read_log. rewrite Heqb, !app_nil_r.
      rewrite lookup_insert_ne by done.
      repeat split; try done; try apply Hwork.
      intros l Hl. apply (queue_regs σ Hσ) in Hl.
      apply lookup_app_l. by apply lookup_lt_Some in Hl.
Qed.

(** X17: tasks do not disturb one another: in a reachable state, a call of
    [computeInMasterFrame] or a completion that is about one task leaves
    every other task as it is: its entry, the callbacks waiting in its array,
    the callbacks passed and invoked for it so far, and the number of
    invocations of its work function. *)
Theorem other_tasks_untouched
    (acts : list action) (σ σ' : world) (a : action) (t : string) :
  run acts init = Some σ →
  step a σ = Some σ' →
  task_of a σ ≠ Some t →
  tasks_of σ' !! t = tasks_of σ !! t ∧
  (∀ l, tasks_of σ !! t = Some (EArray l) → heap σ' !! l = heap σ !! l) ∧
  registered t (log σ') = registered t (log σ) ∧
  delivered t (log σ') = delivered t (log σ) ∧
  work_count t σ' = work_count t σ.
Proof.
  intros Hrun Hstep Hother.
  pose proof (reachable_consistent acts σ Hrun) as Hσ.
  destruct a as [m t' w cb | n r]; simpl in Hstep, Hother.
  - injection Hstep as <-. apply call_other_task; [done|]. congruence.
  - destruct (works σ !! n) as [[w k]|]; [|done].
    injection Hstep as <-.
    assert (cl_taskId k ≠ t) as Hne by congruence.
    rewrite complete_tasks_other, complete_heap, complete_log,
      complete_work_count by done.
    read_log. rewrite (proj2 (String.eqb_neq _ _) Hne), !app_nil_r. done.
Qed.

Lemma other_tasks_untouched_witness :
  ∃ σ σ',
    run [ ACall false "geo" 7 (Callback 0 false);
          ACall true "geo" 7 (Callback 1 false);
          ACall true "ads" 8 (Callback 2 false) ] init = Some σ ∧
    step (AComplete 1 (VStr "banner")) σ = Some σ' ∧
    tasks_of σ' !! "geo" = tasks_of σ !! "geo" ∧
    delivered "geo" (log σ') = delivered "geo" (log σ).
Proof.
  eexists. eexists. split; [reflexivity|]. split; [reflexivity|].
  destruct (other_tasks_untouched
              [ ACall false "geo" 7 (Callback 0 false);
                ACall true "geo" 7 (Callback 1 false);
                ACall true "ads" 8 (Callback 2 false) ]
              _ _ (AComplete 1 (VStr "banner")) "geo" eq_refl eq_refl)
    as (Htasks & _ & _ & Hdelivered & _).
  - simpl. discriminate.
  - split; [exact Htasks | exact Hdelivered].
Defined.
